(** * The WebSocket fan-out hub of agents-handler (package websocket)

    A shallow embedding of the Go hub: the connection registry driven by
    [Hub.Run], the non-blocking broadcast entry point, the batching layer
    with its [time.AfterFunc] deadline, and the origin check of the
    upgrader.  Channels, timers and panics follow the Go runtime; the
    goroutines are interleaved by an explicit schedule of events.  The
    last part embeds the choice of request ids shown by the chain list
    of the web client. *)

From Stdlib Require Import ZArith Ascii String.
From Stdlib Require QArith.
From stdpp Require Import gmap strings list fin_maps pretty.

#[local] Set Warnings "-clear-no-such-hyp".

(** ** The part of the Go runtime the hub relies on *)

Module Go.

(** Run-time panics a channel operation can raise. *)
Inductive panic :=
  | SendOnClosedChannel
  | CloseOfClosedChannel
  | NilPointerDereference.

Inductive result (A : Type) :=
  | Ok (a : A)
  | Panic (p : panic).
#[global] Arguments Ok {A} a.
#[global] Arguments Panic {A} p.

(** [[]byte] *)
Definition bytes := string.

(** A buffered [chan []byte]: the queued elements, oldest first, the
    capacity given to [make], and whether [close] has been called. *)
Record Chan := mkChan { buf : list bytes; cap : nat; closed : bool }.

Definition make (n : nat) : Chan := mkChan [] n false.
Definition len (ch : Chan) : nat := length (buf ch).

(** [select { case ch <- v: ... default: ... }]: the send case panics
    on a closed channel, is taken when the buffer has room, and the
    default branch runs otherwise.  [None] stands for the default
    branch. *)
Definition try_send (v : bytes) (ch : Chan) : result (option Chan) :=
  if closed ch then Panic SendOnClosedChannel
  else if decide (len ch < cap ch)
       then Ok (Some (mkChan (buf ch ++ [v]) (cap ch) false))
       else Ok None.

(** [close(ch)] *)
Definition close (ch : Chan) : result Chan :=
  if closed ch then Panic CloseOfClosedChannel
  else Ok (mkChan (buf ch) (cap ch) true).

(** [time.Duration], in nanoseconds. *)
Definition Duration := Z.
Definition Millisecond : Duration := 1000000%Z.
Definition Second : Duration := (1000 * Millisecond)%Z.

(** A timer made by [time.AfterFunc(d, f)].  It is [Armed] until its
    deadline; the runtime then starts [f] in a goroutine of its own
    ([Fired]: started, body not yet run, e.g. waiting for a mutex) and
    [f] eventually runs ([Ran]).  [Stop] only prevents a timer that
    has not fired. *)
Inductive TimerStatus := Armed | Fired | Stopped | Ran.

Record Timer := mkTimer { deadline : Z; status : TimerStatus }.

Definition Stop (t : Timer) : Timer :=
  match status t with
  | Armed => mkTimer (deadline t) Stopped
  | _ => t
  end.

End Go.
Import Go.

(** ** Constants of the package *)

Definition writeWait : Duration := (10 * Second)%Z.
Definition pongWait : Duration := (60 * Second)%Z.
Definition pingPeriod : Duration := ((pongWait * 9) / 10)%Z.
Definition maxMessageSize : Z := (512 * 1024)%Z.
Definition batchWindow : Duration := (50 * Millisecond)%Z.
Definition maxBatchSize : nat := 10.

(** ** Messages *)

(** [type Message struct { Type string; Data interface{} }].  The dynamic
    value in [Data] is either whatever the producer handed over (a
    [payload]) or the [[]Message] that [flushBatch] wraps. *)
Inductive Message (payload : Type) : Type :=
  | mkMessage (type : string) (data : Data payload)
with Data (payload : Type) : Type :=
  | DValue (v : payload)
  | DMessages (buffer : list (Message payload)).
Arguments mkMessage {payload} type data.
Arguments DValue {payload} v.
Arguments DMessages {payload} buffer.

(** [json.Marshal] on a [Message]; [None] is a marshalling error. *)
Class Marshal (payload : Type) :=
  json_Marshal : Message payload → option bytes.

(** ** Requests and the upgrader *)

(** [*http.Request]: the header map, and whether the rest of the
    WebSocket handshake (method, Upgrade/Connection headers, key) is in
    order. *)
Record Request := mkRequest {
  Header : gmap string (list string);
  handshake_ok : bool
}.

(** [r.Header.Get(key)]: the first value of the key, or the empty
    string. *)
Definition Header_Get (r : Request) (key : string) : string :=
  match Header r !! key with
  | Some (v :: _) => v
  | _ => ""
  end.

Definition allowedOrigins : list string :=
  [ "http://localhost:5173";
    "http://localhost:3000";
    "http://127.0.0.1:5173";
    "http://127.0.0.1:3000" ].

Inductive LogLine :=
  | LogOriginAllowed (origin : string)
  | LogOriginRejected (origin : string)
  | LogUpgradeError
  | LogClientConnected (total : nat)
  | LogClientDisconnected (total : nat)
  | LogMarshalError
  | LogMessageDropped
  | LogBatchMarshalError
  | LogBatchDropped.

(** [for _, allowed := range allowedOrigins { if origin == allowed ... }] *)
Fixpoint origin_in (origin : string) (allowed : list string) : bool :=
  match allowed with
  | [] => false
  | a :: rest => if decide (origin = a) then true else origin_in origin rest
  end.

(** [upgrader.CheckOrigin]: the verdict and the lines it logs. *)
Definition CheckOrigin (r : Request) : bool * list LogLine :=
  let origin := Header_Get r "Origin" in
  if decide (origin = "") then (true, [])
  else if origin_in origin allowedOrigins
       then (true, [LogOriginAllowed origin])
       else (false, [LogOriginRejected origin]).

(** [upgrader.Upgrade]: gorilla refuses the upgrade when the handshake is
    malformed or when [CheckOrigin] answers false. *)
Definition Upgrade (r : Request) : bool * list LogLine :=
  if handshake_ok r then CheckOrigin r else (false, []).

(** ** The hub and its runtime state *)

(** [*Client] and [*time.Timer]: pointers are the index of the object in
    the heap of its kind. *)
Abbreviation Client := nat (only parsing).
Abbreviation TimerId := nat (only parsing).

(** What a step does to the outside world, in order: log lines and the
    channel operations performed. *)
Inductive Effect {payload : Type} :=
  | Log (l : LogLine)
  | Insert (c : Client)                      (* h.clients[client] = true *)
  | Close (c : Client)                       (* close(client.send) *)
  | Enqueue (c : Client) (message : bytes)   (* client.send <- message *)
  | Submit (jsonData : bytes)                (* h.broadcast <- jsonData *)
  | Flush (buffer : list (Message payload))  (* flushBatch took the buffer *)
  | Frame (c : Client) (frame : bytes)       (* writePump wrote a text frame *)
  | CloseFrame (c : Client).                 (* writePump wrote the close frame *)
Arguments Effect payload : clear implicits.

(** The fields of [Hub] ([clients], [broadcast], [batchBuffer],
    [batchTimer]; the unbuffered [register] and [unregister] channels are
    rendezvous and appear as events), followed by what lives outside the
    struct: the [send] channel of every [Client] ever made, the runtime
    timers, the clock, and the locals of [Run] while it is inside its
    broadcast case (the message and the snapshot entries still to
    visit). *)
Record State {payload : Type} := mkState {
  clients : gmap Client bool;
  broadcast : Chan;
  batchBuffer : list (Message payload);
  batchTimer : option TimerId;
  send : list Chan;
  timers : list Timer;
  now : Z;
  fanout : option (bytes * list Client)
}.
Arguments State payload : clear implicits.
Arguments mkState {payload}.

Section Hub.
Context {payload : Type} `{!Marshal payload}.

#[local] Abbreviation State := (State payload).
#[local] Abbreviation Effect := (Effect payload).

Definition set_clients (f : gmap nat bool → gmap nat bool) (s : State) : State :=
  mkState (f (clients s)) (broadcast s) (batchBuffer s) (batchTimer s)
          (send s) (timers s) (now s) (fanout s).
Definition set_broadcast (ch : Chan) (s : State) : State :=
  mkState (clients s) ch (batchBuffer s) (batchTimer s)
          (send s) (timers s) (now s) (fanout s).
Definition set_batchBuffer (b : list (Message payload)) (s : State) : State :=
  mkState (clients s) (broadcast s) b (batchTimer s)
          (send s) (timers s) (now s) (fanout s).
Definition set_batchTimer (t : option nat) (s : State) : State :=
  mkState (clients s) (broadcast s) (batchBuffer s) t
          (send s) (timers s) (now s) (fanout s).
Definition set_send (f : list Chan → list Chan) (s : State) : State :=
  mkState (clients s) (broadcast s) (batchBuffer s) (batchTimer s)
          (f (send s)) (timers s) (now s) (fanout s).
Definition set_timers (f : list Timer → list Timer) (s : State) : State :=
  mkState (clients s) (broadcast s) (batchBuffer s) (batchTimer s)
          (send s) (f (timers s)) (now s) (fanout s).
Definition set_now (t : Z) (s : State) : State :=
  mkState (clients s) (broadcast s) (batchBuffer s) (batchTimer s)
          (send s) (timers s) t (fanout s).
Definition set_fanout (f : option (bytes * list nat)) (s : State) : State :=
  mkState (clients s) (broadcast s) (batchBuffer s) (batchTimer s)
          (send s) (timers s) (now s) f.

(** *** State, effects and panics threaded through the code *)

Definition M (A : Type) : Type := State → result (A * State * list Effect).

Definition ret {A} (a : A) : M A := λ s, Ok (a, s, []).
Definition bind {A B} (m : M A) (f : A → M B) : M B := λ s,
  match m s with
  | Ok (a, s1, e1) =>
      match f a s1 with
      | Ok (b, s2, e2) => Ok (b, s2, e1 ++ e2)
      | Panic p => Panic p
      end
  | Panic p => Panic p
  end.
Definition get : M State := λ s, Ok (s, s, []).
Definition modify (f : State → State) : M unit := λ s, Ok (tt, f s, []).
Definition emit (e : Effect) : M unit := λ s, Ok (tt, s, [e]).
Definition emits (es : list Effect) : M unit := λ s, Ok (tt, s, es).
Definition lift {A} (r : result A) : M A := λ s,
  match r with Ok a => Ok (a, s, []) | Panic p => Panic p end.

Notation "x ←' m ; f" := (bind m (λ x, f))
  (at level 100, m at next level, right associativity, only parsing).
Notation "m ;;' f" := (bind m (λ _, f))
  (at level 100, right associativity, only parsing).

(** [NewHub] *)
Definition NewHub : State :=
  mkState ∅ (make 256) [] None [] [] 0 None.

(** *** Hub.Run *)

(** [close(client.send)] *)
Definition close_send (c : Client) : M unit :=
  s ←' get;
  match send s !! c with
  | None => lift (Panic NilPointerDereference)
  | Some ch =>
      ch' ←' lift (close ch);
      modify (set_send (λ l, <[c := ch']> l)) ;;'
      emit (Close c)
  end.

(** [if _, ok := h.clients[client]; ok { delete(h.clients, client);
    close(client.send) }], under [h.mu.Lock()]. *)
Definition remove_client (c : Client) : M unit :=
  s ←' get;
  match clients s !! c with
  | Some _ => modify (set_clients (delete c)) ;;' close_send c
  | None => ret tt
  end.

(** [case client := <-h.register] *)
Definition Run_register (c : Client) : M unit :=
  modify (set_clients (λ m, <[c := true]> m)) ;;'
  emit (Insert c) ;;'
  s ←' get;
  emit (Log (LogClientConnected (size (clients s)))).

(** [case client := <-h.unregister] *)
Definition Run_unregister (c : Client) : M unit :=
  remove_client c ;;'
  s ←' get;
  emit (Log (LogClientDisconnected (size (clients s)))).

(** One iteration of the delivery loop:
    [select { case client.send <- message: default: ... }]. *)
Definition Run_deliver_one (message : bytes) (c : Client) : M unit :=
  s ←' get;
  match send s !! c with
  | None => lift (Panic NilPointerDereference)
  | Some ch =>
      sent ←' lift (try_send message ch);
      match sent with
      | Some ch' =>
          modify (set_send (λ l, <[c := ch']> l)) ;;'
          emit (Enqueue c message)
      | None => remove_client c
      end
  end.

(** [for _, client := range clients { ... }] over the snapshot. *)
Fixpoint Run_deliver (message : bytes) (snapshot : list Client) : M unit :=
  match snapshot with
  | [] => ret tt
  | c :: rest => Run_deliver_one message c ;;' Run_deliver message rest
  end.

(** The snapshot [Run] takes under [h.mu.RLock()] lists every key of
    [h.clients] once; Go leaves the order of a map range open, so the
    order is an input. *)
Definition is_snapshot (snapshot : list Client) (s : State) : Prop :=
  NoDup snapshot ∧ list_to_set snapshot = dom (clients s).

#[global] Instance is_snapshot_dec snapshot s : Decision (is_snapshot snapshot s).
Proof. unfold is_snapshot. apply _. Defined.

(** [case message := <-h.broadcast], as one uninterrupted pass.  With
    nothing queued the case is not selected. *)
Definition Run_broadcast (snapshot : list Client) : M unit :=
  s ←' get;
  match buf (broadcast s) with
  | [] => ret tt
  | message :: queued =>
      modify (set_broadcast (mkChan queued (cap (broadcast s)) (closed (broadcast s)))) ;;'
      Run_deliver message snapshot
  end.

(** [GetClientCount] *)
Definition GetClientCount (s : State) : nat := size (clients s).

(** *** Broadcasting *)

(** [select { case h.broadcast <- jsonData: default: log.Printf(...) }] *)
Definition submit (jsonData : bytes) (dropped : LogLine) : M unit :=
  s ←' get;
  sent ←' lift (try_send jsonData (broadcast s));
  match sent with
  | Some ch' => modify (set_broadcast ch') ;;' emit (Submit jsonData)
  | None => emit (Log dropped)
  end.

(** [BroadcastMessage] *)
Definition BroadcastMessage (eventType : string) (data : Data payload) : M unit :=
  match json_Marshal (mkMessage eventType data) with
  | None => emit (Log LogMarshalError)
  | Some jsonData => submit jsonData LogMessageDropped
  end.

(** *** Batching *)

(** [if h.batchTimer != nil { h.batchTimer.Stop(); h.batchTimer = nil }] *)
Definition stop_batchTimer : M unit :=
  s ←' get;
  match batchTimer s with
  | Some t =>
      modify (set_timers (λ l, alter Stop t l)) ;;'
      modify (set_batchTimer None)
  | None => ret tt
  end.

(** [flushBatch], called with [batchMutex] held.  The buffer is taken
    and the timer cleared under the mutex; marshalling and the
    submission to [h.broadcast] follow with the mutex released. *)
Definition flushBatch : M unit :=
  s ←' get;
  match batchBuffer s with
  | [] => ret tt
  | _ :: _ =>
      stop_batchTimer ;;'
      let buffer := batchBuffer s in
      modify (set_batchBuffer []) ;;'
      emit (Flush buffer) ;;'
      match json_Marshal (mkMessage "batch" (DMessages buffer)) with
      | None => emit (Log LogBatchMarshalError)
      | Some jsonData => submit jsonData LogBatchDropped
      end
  end.

(** [BroadcastMessageBatched] *)
Definition BroadcastMessageBatched (eventType : string) (data : Data payload) : M unit :=
  modify (λ s, set_batchBuffer (batchBuffer s ++ [mkMessage eventType data]) s) ;;'
  s ←' get;
  if decide (maxBatchSize ≤ length (batchBuffer s)) then flushBatch
  else
    match batchTimer s with
    | None =>
        (* time.AfterFunc(batchWindow, func() { ... }) *)
        modify (set_timers (λ l, l ++ [mkTimer (now s + batchWindow) Armed])) ;;'
        modify (set_batchTimer (Some (length (timers s))))
    | Some _ => ret tt
    end.

(** The function handed to [time.AfterFunc]:
    [if h.batchTimer != nil { h.flushBatch() }] under [batchMutex]. *)
Definition batchTimer_func : M unit :=
  s ←' get;
  match batchTimer s with
  | Some _ => flushBatch
  | None => ret tt
  end.

(** [Shutdown] *)
Definition Shutdown : M unit :=
  stop_batchTimer ;;'
  s ←' get;
  if decide (0 < length (batchBuffer s)) then flushBatch else ret tt.

(** [flushBatch] runs in two parts.  With [batchMutex] held it stops and
    clears the timer and takes the buffer; it then releases the mutex,
    marshals and submits the batch, and takes the mutex again before it
    returns.  [flushBatch_locked] is the first part, with the buffer
    taken as its result, and [flushBatch_unlocked] the second; other
    goroutines can run in between. *)
Definition flushBatch_locked : M (option (list (Message payload))) :=
  s ←' get;
  match batchBuffer s with
  | [] => ret None
  | _ :: _ =>
      stop_batchTimer ;;'
      let buffer := batchBuffer s in
      modify (set_batchBuffer []) ;;'
      emit (Flush buffer) ;;'
      ret (Some buffer)
  end.

Definition flushBatch_unlocked (taken : option (list (Message payload))) : M unit :=
  match taken with
  | None => ret tt
  | Some buffer =>
      match json_Marshal (mkMessage "batch" (DMessages buffer)) with
      | None => emit (Log LogBatchMarshalError)
      | Some jsonData => submit jsonData LogBatchDropped
      end
  end.

(** [Shutdown] up to the point where its [flushBatch] releases
    [batchMutex]; what follows is [flushBatch_unlocked]. *)
Definition Shutdown_locked : M (option (list (Message payload))) :=
  stop_batchTimer ;;'
  s ←' get;
  if decide (0 < length (batchBuffer s)) then flushBatch_locked else ret None.

(** *** Connections *)

(** [ServeWS]: upgrade, make the [Client] with a [send] channel of
    capacity 256, and hand it to [Run] over the unbuffered [register]
    channel, where it is received by the register case.  The two pumps
    it then starts act through the events below. *)
Definition ServeWS (r : Request) : M unit :=
  let '(ok, logs) := Upgrade r in
  emits (Log <$> logs) ;;'
  if ok then
    s ←' get;
    let client := length (send s) in
    modify (set_send (λ l, l ++ [make 256])) ;;'
    Run_register client
  else emit (Log LogUpgradeError).

Definition newline : string := String (ascii_of_nat 10) EmptyString.

(** The frame [writePump] writes: the message received, then every
    message queued at that instant, each after a newline. *)
Fixpoint frame_of (message : bytes) (queued : list bytes) : bytes :=
  match queued with
  | [] => message
  | m :: rest => frame_of (message +:+ newline +:+ m) rest
  end.

(** The [case message, ok := <-c.send] of [writePump]: with messages
    queued they all leave in one frame; on a closed and drained channel
    the close frame is written; otherwise the loop keeps waiting. *)
Definition writePump_recv (c : Client) : M unit :=
  s ←' get;
  match send s !! c with
  | None => ret tt
  | Some ch =>
      match buf ch with
      | message :: queued =>
          modify (set_send (λ l, <[c := mkChan [] (cap ch) (closed ch)]> l)) ;;'
          emit (Frame c (frame_of message queued))
      | [] => if closed ch then emit (CloseFrame c) else ret tt
      end
  end.

(** The deferred function of [readPump]: [c.hub.unregister <- c],
    received by the unregister case of [Run]. *)
Definition readPump_exit (c : Client) : M unit := Run_unregister c.

(** *** The goroutines, interleaved

    One event is one uninterrupted step of one goroutine.  An event that
    cannot happen in the current state (a rendezvous with [Run] while
    [Run] is busy, a timer that has not reached its deadline) leaves the
    state as it is.

    The grain follows the synchronisation of the code.  [Run] is one
    goroutine: between two of its steps others may move, but its cases
    never overlap, and inside its broadcast case every iteration of the
    delivery loop is a step of its own.  A send on the unbuffered
    [register] or [unregister] channel completes together with the
    receive in [Run], so the sender's half and the case of [Run] are
    one event.  The bodies guarded by [batchMutex] are one event each,
    together with the submission to [h.broadcast] that [flushBatch]
    performs after releasing the mutex; steps of other goroutines
    between the two are not among the schedules, and
    [flushBatch_locked] and [flushBatch_unlocked] above give the two
    parts for what can happen there.  The runtime firing a timer and
    the timer's function taking [batchMutex] are two events. *)

Inductive Event :=
  | EvServeWS (r : Request)               (* an upgrade request is served *)
  | EvRegisterAgain (c : Client)          (* a live client is sent on register again *)
  | EvReadPumpExit (c : Client)           (* readPump of c returns *)
  | EvRunBroadcast (snapshot : list Client)
                                          (* Run receives from h.broadcast and snapshots *)
  | EvRunDeliver                          (* Run visits the next snapshot entry *)
  | EvWritePump (c : Client)              (* writePump of c receives from c.send *)
  | EvBroadcastMessage (eventType : string) (data : Data payload)
  | EvBroadcastMessageBatched (eventType : string) (data : Data payload)
  | EvSleep (d : Z)                       (* time passes *)
  | EvTimerExpire (t : TimerId)           (* the runtime fires timer t *)
  | EvTimerFunc (t : TimerId)             (* the function of timer t runs *)
  | EvShutdown.

(** [Run] sits in its [select], ready to receive. *)
Definition idle (s : State) : bool :=
  match fanout s with None => true | Some _ => false end.

Definition next_fanout (message : bytes) (rest : list nat) : option (bytes * list nat) :=
  match rest with [] => None | _ :: _ => Some (message, rest) end.

(** [Run] receives [message] from [h.broadcast] and takes the snapshot. *)
Definition Run_broadcast_begin (snapshot : list Client) : M unit :=
  s ←' get;
  match buf (broadcast s) with
  | [] => ret tt
  | message :: queued =>
      modify (set_broadcast (mkChan queued (cap (broadcast s)) (closed (broadcast s)))) ;;'
      modify (set_fanout (next_fanout message snapshot))
  end.

(** [Run] performs the next iteration of its delivery loop. *)
Definition Run_broadcast_next : M unit :=
  s ←' get;
  match fanout s with
  | Some (message, c :: rest) =>
      modify (set_fanout (next_fanout message rest)) ;;'
      Run_deliver_one message c
  | _ => ret tt
  end.

Definition timer_expire (t : TimerId) : M unit :=
  s ←' get;
  match timers s !! t with
  | Some tm =>
      match status tm with
      | Armed =>
          if decide (deadline tm ≤ now s)%Z
          then modify (set_timers (λ l, <[t := mkTimer (deadline tm) Fired]> l))
          else ret tt
      | _ => ret tt
      end
  | None => ret tt
  end.

Definition timer_func (t : TimerId) : M unit :=
  s ←' get;
  match timers s !! t with
  | Some tm =>
      match status tm with
      | Fired =>
          modify (set_timers (λ l, <[t := mkTimer (deadline tm) Ran]> l)) ;;'
          batchTimer_func
      | _ => ret tt
      end
  | None => ret tt
  end.

Definition exec (ev : Event) : M unit :=
  s ←' get;
  match ev with
  | EvServeWS r =>
      if fst (Upgrade r) && negb (idle s) then ret tt else ServeWS r
  | EvRegisterAgain c =>
      if idle s && bool_decide (c ∈ dom (clients s)) then Run_register c else ret tt
  | EvReadPumpExit c =>
      if idle s then readPump_exit c else ret tt
  | EvRunBroadcast snapshot =>
      if idle s && bool_decide (is_snapshot snapshot s)
      then Run_broadcast_begin snapshot else ret tt
  | EvRunDeliver => Run_broadcast_next
  | EvWritePump c => writePump_recv c
  | EvBroadcastMessage eventType data => BroadcastMessage eventType data
  | EvBroadcastMessageBatched eventType data => BroadcastMessageBatched eventType data
  | EvSleep d => if decide (0 ≤ d)%Z then modify (set_now (now s + d)%Z) else ret tt
  | EvTimerExpire t => timer_expire t
  | EvTimerFunc t => timer_func t
  | EvShutdown => Shutdown
  end.

Fixpoint run (schedule : list Event) : M unit :=
  match schedule with
  | [] => ret tt
  | ev :: rest => exec ev ;;' run rest
  end.

(** [n] calls of the same operation in a row. *)
Fixpoint times (n : nat) (m : M unit) : M unit :=
  match n with
  | 0 => ret tt
  | S k => m ;;' times k m
  end.

(** [broadcastBatched("tick", f i)]: the message, and the call as an
    event. *)
Definition tick_message (f : nat → payload) (i : nat) : Message payload :=
  mkMessage "tick" (DValue (f i)).
Definition tick_call (f : nat → payload) (i : nat) : Event :=
  EvBroadcastMessageBatched "tick" (DValue (f i)).

(** *** Reading a run *)

Definition is_close (c : nat) (e : Effect) : bool :=
  match e with Close c' => bool_decide (c' = c) | _ => false end.

(** How often [close(client.send)] ran for client [c]. *)
Definition closes (c : nat) (es : list Effect) : nat :=
  length (filter (λ e, is_close c e = true) es).

(** The buffers [flushBatch] took, oldest first. *)
Definition flushes (es : list Effect) : list (list (Message payload)) :=
  omap (λ e, match e with Flush b => Some b | _ => None end) es.

(** What was put on [h.broadcast], oldest first. *)
Definition submitted (es : list Effect) : list bytes :=
  omap (λ e, match e with Submit j => Some j | _ => None end) es.

(** The clients inserted into [h.clients], and those whose queue was
    closed. *)
Definition registered (es : list Effect) : gset nat :=
  list_to_set (omap (λ e, match e with Insert c => Some c | _ => None end) es).
Definition unregistered (es : list Effect) : gset nat :=
  list_to_set (omap (λ e, match e with Close c => Some c | _ => None end) es).

(** *** The registry invariant *)

(** Every client in [h.clients] has a [send] channel, a client that has
    one is in [h.clients] exactly when that channel is open,
    [h.broadcast] is open, and the snapshot entries [Run] still has to
    visit are distinct members of [h.clients]. *)
Record registry_inv (s : State) : Prop := {
  inv_active_open : ∀ c ch, send s !! c = Some ch →
                      (c ∈ dom (clients s) ↔ closed ch = false);
  inv_allocated : ∀ c, c ∈ dom (clients s) → is_Some (send s !! c);
  inv_broadcast_open : closed (broadcast s) = false;
  inv_fanout : ∀ message rest, fanout s = Some (message, rest) →
                 NoDup rest ∧ ∀ c, c ∈ rest → c ∈ dom (clients s)
}.

(** The outcome of a computation, with [Run] placed at [f] in its
    delivery loop. *)
Definition with_fanout (f : option (bytes * list Client))
    (r : result (unit * State * list Effect)) : result (unit * State * list Effect) :=
  match r with
  | Ok (a, s, es) => Ok (a, set_fanout f s, es)
  | Panic p => Panic p
  end.

(** Whether [close(client.send)] has happened to client [c]; a client
    that does not exist yet has no closed queue. *)
Definition was_closed (s : State) (c : nat) : bool :=
  match send s !! c with Some ch => closed ch | None => false end.

(** Effects that leave the registry alone. *)
Definition registry_quiet (es : list Effect) : Prop :=
  Forall (λ e, match e with Insert _ | Close _ => False | _ => True end) es.

(** A step that neither touches membership nor opens or closes a
    channel. *)
Record registry_frame (s s' : State) (es : list Effect) : Prop := {
  frame_clients : clients s' = clients s;
  frame_send : closed <$> send s' = closed <$> send s;
  frame_fanout : fanout s' = fanout s;
  frame_broadcast : closed (broadcast s') = closed (broadcast s);
  frame_quiet : registry_quiet es
}.

(** A computation that always returns, given that [h.broadcast] is open,
    and leaves the registry alone. *)
Definition registry_framed {A : Type} (m : M A) : Prop :=
  ∀ s, closed (broadcast s) = false →
       ∃ a s' es, m s = Ok (a, s', es) ∧ registry_frame s s' es.

(** What a stretch of a run from [s] to [s'] with effects [es] does to
    the registry: the invariant holds again, every queue that changed
    from open to closed has exactly one [Close], membership changed by
    the registrations and closes seen, and nothing was registered whose
    queue was closed. *)
Record registry_step (s s' : State) (es : list Effect) : Prop := {
  step_inv : registry_inv s';
  step_closes : ∀ c, closes c es + (if was_closed s c then 1 else 0)
                     = (if was_closed s' c then 1 else 0);
  step_clients : dom (clients s') =
                 (dom (clients s) ∪ registered es) ∖ unregistered es;
  step_registered : ∀ c, c ∈ registered es → was_closed s c = false
}.

(** *** Queues, batches and frames over a run *)

(** A channel made with capacity 256 that holds no more than that. *)
Definition chan_bounded (ch : Chan) : Prop := len ch ≤ cap ch ∧ cap ch = 256.

Definition queues_bounded (s : State) : Prop :=
  chan_bounded (broadcast s) ∧ Forall chan_bounded (send s).

(** A timer that can still run its function. *)
Definition live_timer (tm : Timer) : Prop :=
  status tm = Armed ∨ status tm = Fired.

(** The batching fields between two critical sections of [batchMutex]:
    the buffer is below the threshold, it is empty exactly when
    [batchTimer] is nil, and [batchTimer] points to a live timer. *)
Record batch_inv (s : State) : Prop := {
  batch_below : length (batchBuffer s) < maxBatchSize;
  batch_timer_iff : batchBuffer s = [] ↔ batchTimer s = None;
  batch_timer_live : ∀ t, batchTimer s = Some t →
                       ∃ tm, timers s !! t = Some tm ∧ live_timer tm
}.

(** Every armed timer is the one [batchTimer] points to. *)
Definition armed_inv (s : State) : Prop :=
  ∀ t tm, timers s !! t = Some tm → status tm = Armed → batchTimer s = Some t.

(** The messages handed to [BroadcastMessageBatched] by a schedule, in
    call order. *)
Definition added_by (ev : Event) : list (Message payload) :=
  match ev with
  | EvBroadcastMessageBatched eventType data => [mkMessage eventType data]
  | _ => []
  end.
Definition added (schedule : list Event) : list (Message payload) :=
  concat (map added_by schedule).

Definition batch_sized (b : list (Message payload)) : Prop :=
  0 < length b ≤ maxBatchSize.

(** How a submission to [h.broadcast] can end besides being accepted:
    dropped because the channel is full, or refused by [json.Marshal];
    both are logged. *)
Definition is_dropped (e : Effect) : bool :=
  match e with
  | Log LogMessageDropped | Log LogBatchDropped => true
  | _ => false
  end.

Definition is_marshal_error (e : Effect) : bool :=
  match e with
  | Log LogMarshalError | Log LogBatchMarshalError => true
  | _ => false
  end.

Definition dropped (es : list Effect) : nat :=
  length (filter (λ e, is_dropped e = true) es).

Definition marshal_errors (es : list Effect) : nat :=
  length (filter (λ e, is_marshal_error e = true) es).

Definition outcomes (es : list Effect) : nat :=
  length (submitted es) + dropped es + marshal_errors es.

(** The calls of [BroadcastMessage] in a schedule. *)
Definition is_BroadcastMessage (ev : Event) : bool :=
  match ev with EvBroadcastMessage _ _ => true | _ => false end.

Definition broadcast_calls (schedule : list Event) : nat :=
  length (filter (λ ev, is_BroadcastMessage ev = true) schedule).

(** What [Run] put on the [send] queue of client [c], oldest first. *)
Definition enqueued (c : nat) (es : list Effect) : list bytes :=
  omap (λ e, match e with
             | Enqueue c' m => if decide (c' = c) then Some m else None
             | _ => None
             end) es.

(** The text frames [writePump] of client [c] wrote, oldest first. *)
Definition frames (c : nat) (es : list Effect) : list bytes :=
  omap (λ e, match e with
             | Frame c' frame => if decide (c' = c) then Some frame else None
             | _ => None
             end) es.

(** What waits on the [send] queue of client [c]. *)
Definition queue (s : State) (c : nat) : list bytes :=
  match send s !! c with Some ch => buf ch | None => [] end.

(** The messages that left in one frame: the one received and those
    queued behind it. *)
Definition frame_messages (g : bytes * list bytes) : list bytes := g.1 :: g.2.

(** [h.broadcast] is first in, first out, and so is the delivery loop:
    with [consumed] the messages [Run] has received so far, everything
    submitted is [consumed] followed by what is still queued, a client
    was handed a subsequence of [consumed], and the clients [Run] has
    yet to visit in the current pass have not seen its message. *)
Record fifo_inv (s : State) (es : list Effect) (consumed : list bytes) : Prop := {
  fifo_submitted : submitted es = consumed ++ buf (broadcast s);
  fifo_enqueued : ∀ c, enqueued c es `sublist_of` consumed;
  fifo_fanout : ∀ m rest, fanout s = Some (m, rest) →
                  NoDup rest ∧
                  ∃ pre, consumed = pre ++ [m] ∧
                         ∀ c, c ∈ rest → enqueued c es `sublist_of` pre
}.

(** What one event can do to the [send] queue of client [c]: leave it,
    make it, close it, append one message when it is open and has room,
    drain it into one frame, or answer its closing with the close
    frame. *)
Inductive queue_step (c : nat) :
    option Chan → option Chan → list Effect → Prop :=
  | queue_untouched o es :
      frames c es = [] → enqueued c es = [] → CloseFrame c ∉ es →
      queue_step c o o es
  | queue_made es :
      frames c es = [] → enqueued c es = [] → CloseFrame c ∉ es →
      queue_step c None (Some (make 256)) es
  | queue_closed ch es :
      closed ch = false →
      frames c es = [] → enqueued c es = [] → CloseFrame c ∉ es →
      queue_step c (Some ch) (Some (mkChan (buf ch) (cap ch) true)) es
  | queue_enqueued ch message es :
      closed ch = false → len ch < cap ch →
      frames c es = [] → enqueued c es = [message] → CloseFrame c ∉ es →
      queue_step c (Some ch) (Some (mkChan (buf ch ++ [message]) (cap ch) false)) es
  | queue_drained ch message queued es :
      buf ch = message :: queued →
      frames c es = [frame_of message queued] → enqueued c es = [] →
      CloseFrame c ∉ es →
      queue_step c (Some ch) (Some (mkChan [] (cap ch) (closed ch))) es
  | queue_close_frame ch :
      buf ch = [] → closed ch = true →
      queue_step c (Some ch) (Some ch) [CloseFrame c].

(** The frames written to client [c] are its queue taken in groups, in
    order, and once the close frame is written the queue is closed and
    empty. *)
Record pump_inv (c : nat) (s : State) (es : list Effect)
    (groups : list (bytes * list bytes)) : Prop := {
  pump_frames : frames c es = map (λ g, frame_of g.1 g.2) groups;
  pump_messages : concat (map frame_messages groups) ++ queue s c = enqueued c es;
  pump_closed : CloseFrame c ∈ es → was_closed s c = true ∧ queue s c = []
}.

End Hub.

Arguments Event payload : clear implicits.

(** ** A marshaller to run the model with

    Payloads that are an integer, or a Go channel, which encoding/json
    refuses to encode.  Event types are taken to be plain identifiers;
    only the quote and the backslash are escaped. *)

Inductive GoValue := VInt (i : Z) | VChan.

Definition quote : string := String (ascii_of_nat 34) EmptyString.
Definition backslash : string := String (ascii_of_nat 92) EmptyString.

Fixpoint json_escape (s : string) : string :=
  match s with
  | EmptyString => EmptyString
  | String a rest =>
      if decide (a = ascii_of_nat 34) then backslash +:+ quote +:+ json_escape rest
      else if decide (a = ascii_of_nat 92) then backslash +:+ backslash +:+ json_escape rest
      else String a (json_escape rest)
  end.

Definition json_string (s : string) : string := quote +:+ json_escape s +:+ quote.

Fixpoint json_join (items : list string) : string :=
  match items with
  | [] => ""
  | [x] => x
  | x :: rest => x +:+ "," +:+ json_join rest
  end.

Fixpoint json_message (m : Message GoValue) : option string :=
  match m with
  | mkMessage type data =>
      match json_data data with
      | Some d =>
          Some ("{" +:+ json_string "type" +:+ ":" +:+ json_string type +:+ ","
                    +:+ json_string "data" +:+ ":" +:+ d +:+ "}")
      | None => None
      end
  end
with json_data (d : Data GoValue) : option string :=
  match d with
  | DValue (VInt i) => Some (pretty i)
  | DValue VChan => None
  | DMessages buffer =>
      let fix all (l : list (Message GoValue)) : option (list string) :=
        match l with
        | [] => Some []
        | m :: rest =>
            match json_message m, all rest with
            | Some x, Some xs => Some (x :: xs)
            | _, _ => None
            end
        end in
      match all buffer with
      | Some items => Some ("[" +:+ json_join items +:+ "]")
      | None => None
      end
  end.

#[global] Instance GoValue_Marshal : Marshal GoValue := json_message.

(** [broadcastBatched("tick", i)] with an integer payload. *)
Definition VTick (i : nat) : GoValue := VInt (Z.of_nat i).
Definition tick (i : nat) : Event GoValue := tick_call VTick i.

(** ** States to run the model on *)

(** A request from a non-browser client: no Origin header. *)
Definition plain_request : Request := mkRequest ∅ true.

(** A request carrying the given Origin header. *)
Definition request_from (origin : string) : Request :=
  mkRequest {[ "Origin" := [origin] ]} true.

(** The hub after one client has connected. *)
Definition one_client : State GoValue :=
  mkState {[ 0 := true ]} (make 256) [] None [make 256] [] 0 None.

(** Two connected clients and one message to fan out; the queue of
    client 0 is full, that of client 1 is empty. *)
Definition slow_and_fast : State GoValue :=
  mkState {[ 0 := true; 1 := true ]} (mkChan ["ping"] 256 false) [] None
          [mkChan (replicate 256 "x") 256 false; make 256] [] 0 None.

(** The hub with two ticks pending and their deadline armed. *)
Definition two_pending : State GoValue :=
  mkState ∅ (make 256) [tick_message VTick 0; tick_message VTick 1] (Some 0)
          [] [mkTimer batchWindow Armed] 0 None.

(** The bytes of the batch of ticks [a], ..., [a + n - 1]. *)
Definition batch_json (a n : nat) : bytes :=
  default EmptyString
    (json_Marshal (mkMessage "batch" (DMessages (map (tick_message VTick) (seq a n))))).

(** The bytes of tick [i] on its own. *)
Definition tick_json (i : nat) : bytes :=
  default EmptyString (json_Marshal (tick_message VTick i)).

(** One client is served and never read from: [n] broadcasts, each
    followed by the delivery pass of [Run]. *)
Definition flood (n : nat) : list (Event GoValue) :=
  EvServeWS plain_request ::
  concat (replicate n [EvBroadcastMessage "x" (DValue (VInt 1));
                       EvRunBroadcast [0]; EvRunDeliver]).

(** Nine ticks; the window elapses and the runtime fires the deadline
    timer, whose function has yet to take [batchMutex]; a tenth tick
    reaches the threshold; an eleventh opens the next window. *)
Definition stale_timer_schedule : list (Event GoValue) :=
  map tick (seq 0 9) ++
  [EvSleep batchWindow; EvTimerExpire 0; tick 9; tick 10].

(** ** The chain list of the web client

    [MultiAgentChains] picks the request ids whose chains it shows from
    the recent tool calls. *)

Module Web.

(** [ToolCall], as far as the component reads it. *)
Record ToolCall := mkToolCall { requestId : string }.

(** A JavaScript string is truthy when it is not empty. *)
Definition truthy (s : string) : bool := negb (bool_decide (s = "")).

(** A JavaScript number: a finite value (every double is a rational), an
    infinity, or NaN. *)
Inductive Number :=
  | Finite (q : QArith_base.Q)
  | Infinity
  | NegInfinity
  | NaN.

(** The number a whole-valued limit is. *)
Definition Integer (z : Z) : Number := Finite (QArith_base.inject_Z z).

(** [ids.length >= maxChains]: an array length against a number.  Every
    comparison with NaN is false. *)
Definition length_ge (n : nat) (maxChains : Number) : bool :=
  match maxChains with
  | Finite q => QArith_base.Qle_bool q (QArith_base.inject_Z (Z.of_nat n))
  | Infinity => false
  | NegInfinity => true
  | NaN => false
  end.

(** The loop of [uniqueRequestIds]: [seen] and [ids] are its two
    accumulators, and [ids.length >= maxChains] breaks out of it; the
    limit is tested after the push. *)
Fixpoint uniqueRequestIds_loop (maxChains : Number) (calls : list ToolCall)
    (seen : gset string) (ids : list string) : list string :=
  match calls with
  | [] => ids
  | call :: rest =>
      if truthy (requestId call) && negb (bool_decide (requestId call ∈ seen))
      then
        let seen' := {[requestId call]} ∪ seen in
        let ids' := ids ++ [requestId call] in
        if length_ge (length ids') maxChains then ids'
        else uniqueRequestIds_loop maxChains rest seen' ids'
      else uniqueRequestIds_loop maxChains rest seen ids
  end.

Definition uniqueRequestIds (maxChains : Number) (recentToolCalls : list ToolCall) :
    list string :=
  uniqueRequestIds_loop maxChains recentToolCalls ∅ [].

(** Between two iterations [seen] holds exactly the ids pushed, which
    are distinct and not empty. *)
Record loop_inv (seen : gset string) (ids : list string) : Prop := {
  loop_seen : seen = list_to_set ids;
  loop_nodup : NoDup ids;
  loop_truthy : ∀ id, id ∈ ids → id ≠ ""
}.

(** Recent tool calls of two agents, one call without a request id. *)
Definition recent_calls : list ToolCall :=
  [mkToolCall "req-a"; mkToolCall ""; mkToolCall "req-b"; mkToolCall "req-a"].

(** Recent tool calls of four agents. *)
Definition four_agents : list ToolCall :=
  [mkToolCall "req-a"; mkToolCall "req-b"; mkToolCall "req-c"; mkToolCall "req-d"].

(** The limit 2.5. *)
Definition two_and_a_half : Number := Finite (QArith_base.Qmake 5 2).

End Web.

(** ** Proofs *)

Section Proofs.
Context {payload : Type} `{!Marshal payload}.

#[local] Abbreviation State := (State payload).
#[local] Abbreviation Effect := (Effect payload).
#[local] Abbreviation M := (@M payload).
#[local] Abbreviation registry_framed := (@registry_framed payload).
#[local] Abbreviation NewHub := (@NewHub payload).

Ltac unfold_m :=
  unfold bind, ret, get, modify, emit, emits, lift in *.

(** *** The origin check *)

Lemma origin_in_elem_of (origin : string) (allowed : list string) :
  origin_in origin allowed = true ↔ origin ∈ allowed.
Proof.
  induction allowed as [|a rest IH]; simpl.
  - split; [discriminate | intros H; inversion H].
  - destruct (decide (origin = a)) as [->|Hne].
    + split; [intros _; left | done].
    + rewrite IH. split; [by right|].
      intros Hin. inversion Hin; by subst.
Qed.

Lemma CheckOrigin_true (r : Request) :
  (CheckOrigin r).1 = true ↔
  Header_Get r "Origin" = "" ∨ Header_Get r "Origin" ∈ allowedOrigins.
Proof.
  unfold CheckOrigin.
  destruct (decide (Header_Get r "Origin" = "")) as [He|Hne].
  - split; [intros _; by left | reflexivity].
  - destruct (origin_in (Header_Get r "Origin") allowedOrigins) eqn:Hin.
    + apply origin_in_elem_of in Hin.
      split; [intros _; by right | reflexivity].
    + split; [discriminate|].
      intros [He|Hel]; [done|].
      apply origin_in_elem_of in Hel. congruence.
Qed.

(** *** Removing a client *)

Lemma remove_client_absent (s : State) (c : nat) :
  clients s !! c = None → remove_client c s = Ok (tt, s, []).
Proof. intros Hc. unfold remove_client. unfold_m. by rewrite Hc. Qed.

Lemma remove_client_present (s : State) (c : nat) (b : bool) (ch : Chan) :
  clients s !! c = Some b → send s !! c = Some ch → closed ch = false →
  remove_client c s =
    Ok (tt,
        set_send (λ l, <[c := mkChan (buf ch) (cap ch) true]> l)
                 (set_clients (delete c) s),
        [Close c]).
Proof.
  intros Hc Hs Hopen. unfold remove_client, close_send. unfold_m.
  rewrite Hc. simpl. rewrite Hs. unfold close. by rewrite Hopen.
Qed.

Lemma Run_unregister_absent (s : State) (c : nat) :
  clients s !! c = None →
  Run_unregister c s =
    Ok (tt, s, [Log (LogClientDisconnected (size (clients s)))]).
Proof.
  intros Hc. unfold Run_unregister. unfold bind at 1.
  rewrite (remove_client_absent _ _ Hc). by unfold_m.
Qed.

Lemma times_Run_unregister_absent (s : State) (c n : nat) :
  clients s !! c = None →
  times n (Run_unregister c) s =
    Ok (tt, s, replicate n (Log (LogClientDisconnected (size (clients s))))).
Proof.
  intros Hc. induction n as [|n IH]; simpl; [done|].
  unfold bind. by rewrite (Run_unregister_absent _ _ Hc), IH.
Qed.

(** *** Effects of a run *)

Lemma closes_app (c : nat) (es1 es2 : list Effect) :
  closes c (es1 ++ es2) = closes c es1 + closes c es2.
Proof. unfold closes. by rewrite filter_app, length_app. Qed.

Lemma registered_app (es1 es2 : list Effect) :
  registered (es1 ++ es2) = registered es1 ∪ registered es2.
Proof. unfold registered. by rewrite omap_app, list_to_set_app_L. Qed.

Lemma unregistered_app (es1 es2 : list Effect) :
  unregistered (es1 ++ es2) = unregistered es1 ∪ unregistered es2.
Proof. unfold unregistered. by rewrite omap_app, list_to_set_app_L. Qed.

Lemma elem_of_unregistered (c : nat) (es : list Effect) :
  c ∈ unregistered es ↔ 0 < closes c es.
Proof.
  unfold unregistered, closes.
  induction es as [|e es IH]; simpl.
  - rewrite elem_of_empty. lia.
  - destruct e as [| |c'| | | | |]; simpl;
      rewrite ?filter_cons; unfold is_close at 1; simpl;
      try (destruct (decide (false = true)) as [?|_]; [done|]; exact IH).
    rewrite elem_of_union, elem_of_singleton, IH.
    destruct (decide (bool_decide (c' = c) = true)) as [Ht|Hf].
    + apply bool_decide_eq_true_1 in Ht. simpl. split; [lia | by left].
    + split; [intros [->|?]; [|done] | by right].
      by rewrite bool_decide_eq_true_2 in Hf.
Qed.

Lemma registry_quiet_closes (c : nat) (es : list Effect) :
  registry_quiet es → closes c es = 0.
Proof.
  unfold registry_quiet, closes. induction 1 as [|e es He _ IH]; [done|].
  rewrite filter_cons. destruct e; simpl in *; try done;
    destruct (decide (false = true)); done.
Qed.

Lemma registry_quiet_registered (es : list Effect) :
  registry_quiet es → registered es = ∅.
Proof.
  unfold registry_quiet, registered. induction 1 as [|e es He _ IH]; [done|].
  destruct e; simpl in *; done.
Qed.

Lemma registry_quiet_unregistered (es : list Effect) :
  registry_quiet es → unregistered es = ∅.
Proof.
  unfold registry_quiet, unregistered. induction 1 as [|e es He _ IH]; [done|].
  destruct e; simpl in *; done.
Qed.

Lemma registry_quiet_app (es1 es2 : list Effect) :
  registry_quiet es1 → registry_quiet es2 → registry_quiet (es1 ++ es2).
Proof. apply Forall_app_2. Qed.

(** *** Composing registry steps *)

Lemma was_closed_frame (s s' : State) (c : nat) :
  closed <$> send s' = closed <$> send s → was_closed s' c = was_closed s c.
Proof.
  intros Heq. unfold was_closed.
  assert ((closed <$> send s') !! c = (closed <$> send s) !! c) as Hc
    by (by rewrite Heq).
  rewrite !list_lookup_fmap in Hc.
  destruct (send s' !! c), (send s !! c); simpl in Hc; congruence.
Qed.

Lemma lookup_frame (s s' : State) (c : nat) (ch' : Chan) :
  closed <$> send s' = closed <$> send s → send s' !! c = Some ch' →
  ∃ ch, send s !! c = Some ch ∧ closed ch = closed ch'.
Proof.
  intros Heq Hc.
  assert ((closed <$> send s') !! c = (closed <$> send s) !! c) as Hl
    by (by rewrite Heq).
  rewrite !list_lookup_fmap, Hc in Hl. simpl in Hl.
  destruct (send s !! c) as [ch|]; simpl in Hl; [|done].
  exists ch. split; congruence.
Qed.

(** A step that keeps membership and the open/closed status of every
    queue, with [Run] possibly at another place of its loop. *)
Lemma registry_step_quiet (s s' : State) (es : list Effect) :
  registry_inv s →
  clients s' = clients s → closed <$> send s' = closed <$> send s →
  closed (broadcast s') = false →
  (∀ message rest, fanout s' = Some (message, rest) →
     NoDup rest ∧ ∀ c, c ∈ rest → c ∈ dom (clients s)) →
  registry_quiet es →
  registry_step s s' es.
Proof.
  intros [Hao Hal Hb Hf] Hc Hs Hbr Hfan Hq. split.
  - split.
    + intros c ch' Hl. rewrite Hc.
      destruct (lookup_frame _ _ _ _ Hs Hl) as (ch & Hch & <-).
      by apply Hao.
    + intros c Hin. rewrite Hc in Hin. apply Hal in Hin.
      apply lookup_lt_is_Some. apply lookup_lt_is_Some in Hin.
      assert (length (closed <$> send s') = length (closed <$> send s)) as Hlen
        by (by rewrite Hs).
      rewrite !length_fmap in Hlen. lia.
    + done.
    + intros m rest Hfo. rewrite Hc. by apply (Hfan m).
  - intros c. rewrite (registry_quiet_closes _ _ Hq).
    by rewrite (was_closed_frame _ _ _ Hs).
  - rewrite Hc, (registry_quiet_registered _ Hq), (registry_quiet_unregistered _ Hq).
    set_solver.
  - intros c. rewrite (registry_quiet_registered _ Hq). set_solver.
Qed.

Lemma registry_frame_step (s s' : State) (es : list Effect) :
  registry_inv s → registry_frame s s' es → registry_step s s' es.
Proof.
  intros Hinv [Hc Hs Hfan Hbr Hq].
  apply registry_step_quiet; try done.
  - rewrite Hbr. apply (inv_broadcast_open _ Hinv).
  - intros m rest Hfo. rewrite Hfan in Hfo. by apply (inv_fanout _ Hinv m).
Qed.

Lemma registry_frame_refl (s : State) : registry_frame s s [].
Proof. split; try done. constructor. Qed.

Lemma registry_frame_trans (s s1 s2 : State) (es1 es2 : list Effect) :
  registry_frame s s1 es1 → registry_frame s1 s2 es2 →
  registry_frame s s2 (es1 ++ es2).
Proof.
  intros [] []. split; try congruence. by apply registry_quiet_app.
Qed.

Lemma registry_step_trans (s s1 s2 : State) (es1 es2 : list Effect) :
  registry_step s s1 es1 → registry_step s1 s2 es2 →
  registry_step s s2 (es1 ++ es2).
Proof.
  intros [_ Hc1 Hd1 Hr1] [Hi2 Hc2 Hd2 Hr2].
  assert (∀ c, c ∈ registered es2 → c ∉ unregistered es1) as Hdisj.
  { intros c Hreg Hun. apply Hr2 in Hreg.
    apply elem_of_unregistered in Hun.
    specialize (Hc1 c). rewrite Hreg in Hc1.
    destruct (was_closed s c); lia. }
  split.
  - done.
  - intros c. rewrite closes_app. specialize (Hc1 c). specialize (Hc2 c).
    destruct (was_closed s c), (was_closed s1 c), (was_closed s2 c); lia.
  - rewrite Hd2, Hd1, registered_app, unregistered_app.
    apply set_eq. intros c. specialize (Hdisj c). set_solver.
  - intros c. rewrite registered_app, elem_of_union. intros [Hin|Hin].
    + by apply Hr1.
    + apply Hr2 in Hin. specialize (Hc1 c). rewrite Hin in Hc1.
      destruct (was_closed s c); [lia | done].
Qed.

(** *** Code that leaves the registry alone *)

Lemma framed_ret {A} (a : A) : registry_framed (ret a).
Proof. intros s _. exists a, s, []. split; [done | apply registry_frame_refl]. Qed.

Lemma framed_get : registry_framed get.
Proof. intros s _. exists s, s, []. split; [done | apply registry_frame_refl]. Qed.

Lemma framed_emit (e : Effect) :
  registry_quiet [e] → registry_framed (emit e).
Proof. intros Hq s _. exists tt, s, [e]. split; [done|]. by split. Qed.

Lemma framed_emits (es : list Effect) :
  registry_quiet es → registry_framed (emits es).
Proof. intros Hq s _. exists tt, s, es. split; [done|]. by split. Qed.

Lemma framed_modify (f : State → State) :
  (∀ s, registry_frame s (f s) []) → registry_framed (modify f).
Proof. intros Hf s _. exists tt, (f s), []. split; [done | apply Hf]. Qed.

Lemma framed_bind {A B} (m : M A) (f : A → M B) :
  registry_framed m → (∀ a, registry_framed (f a)) →
  registry_framed (bind m f).
Proof.
  intros Hm Hf s Hb.
  destruct (Hm s Hb) as (a & s1 & e1 & Hrun1 & Hfr1).
  assert (closed (broadcast s1) = false) as Hb1
    by (by rewrite (frame_broadcast _ _ _ Hfr1)).
  destruct (Hf a s1 Hb1) as (b & s2 & e2 & Hrun2 & Hfr2).
  exists b, s2, (e1 ++ e2). split.
  - unfold bind. by rewrite Hrun1, Hrun2.
  - by eapply registry_frame_trans.
Qed.

Ltac framed :=
  repeat first
    [ apply framed_bind; [|intros ?]
    | apply framed_ret
    | apply framed_get
    | apply framed_emit; repeat constructor
    | apply framed_emits
    | apply framed_modify; intros ?; split; simpl; try done; constructor ].

Lemma framed_submit (jsonData : bytes) (dropped : LogLine) :
  registry_framed (submit jsonData dropped).
Proof.
  intros s Hb. unfold submit, try_send. unfold_m. rewrite Hb.
  destruct (decide (len (broadcast s) < cap (broadcast s)));
    simpl; eexists _, _, _; (split; [reflexivity|]);
    split; simpl; try done; repeat constructor.
Qed.

Lemma framed_BroadcastMessage (eventType : string) (data : Data payload) :
  registry_framed (BroadcastMessage eventType data).
Proof.
  unfold BroadcastMessage.
  destruct (json_Marshal (mkMessage eventType data)); [apply framed_submit | framed].
Qed.

Lemma framed_stop_batchTimer : registry_framed stop_batchTimer.
Proof. unfold stop_batchTimer. framed. destruct (batchTimer a); framed. Qed.

Lemma framed_flushBatch : registry_framed flushBatch.
Proof.
  unfold flushBatch. framed. destruct (batchBuffer a); [framed|].
  apply framed_bind; [apply framed_stop_batchTimer | intros _].
  framed. destruct (json_Marshal _); [apply framed_submit | framed].
Qed.

Lemma framed_BroadcastMessageBatched (eventType : string) (data : Data payload) :
  registry_framed (BroadcastMessageBatched eventType data).
Proof.
  unfold BroadcastMessageBatched. framed.
  destruct (decide _); [apply framed_flushBatch|].
  destruct (batchTimer a0); framed.
Qed.

Lemma framed_batchTimer_func : registry_framed batchTimer_func.
Proof.
  unfold batchTimer_func. framed.
  destruct (batchTimer a); [apply framed_flushBatch | framed].
Qed.

Lemma framed_Shutdown : registry_framed Shutdown.
Proof.
  unfold Shutdown.
  apply framed_bind; [apply framed_stop_batchTimer | intros _].
  framed. destruct (decide _); [apply framed_flushBatch | framed].
Qed.

Lemma framed_timer_expire (t : nat) : registry_framed (timer_expire t).
Proof.
  unfold timer_expire. framed.
  destruct (timers a !! t) as [tm|]; [|framed].
  destruct (status tm); [|framed..].
  destruct (decide _); framed.
Qed.

Lemma framed_timer_func (t : nat) : registry_framed (timer_func t).
Proof.
  unfold timer_func. framed.
  destruct (timers a !! t) as [tm|]; [|framed].
  destruct (status tm); [framed | | framed | framed].
  apply framed_bind; [framed | intros _; apply framed_batchTimer_func].
Qed.

(** *** The cases of Hub.Run *)

Lemma Run_register_eq (s : State) (c : nat) :
  Run_register c s =
    Ok (tt, set_clients (λ m, <[c := true]> m) s,
        [Insert c; Log (LogClientConnected (size (<[c := true]> (clients s))))]).
Proof. reflexivity. Qed.

Lemma Run_unregister_present (s : State) (c : nat) (b : bool) (ch : Chan) :
  clients s !! c = Some b → send s !! c = Some ch → closed ch = false →
  Run_unregister c s =
    Ok (tt,
        set_send (λ l, <[c := mkChan (buf ch) (cap ch) true]> l)
                 (set_clients (delete c) s),
        [Close c; Log (LogClientDisconnected (size (delete c (clients s))))]).
Proof.
  intros Hc Hs Hopen. unfold Run_unregister. unfold bind at 1.
  rewrite (remove_client_present _ _ _ _ Hc Hs Hopen). by unfold_m.
Qed.

Lemma Run_deliver_one_room (s : State) (message : bytes) (c : nat) (ch : Chan) :
  send s !! c = Some ch → closed ch = false → len ch < cap ch →
  Run_deliver_one message c s =
    Ok (tt,
        set_send (λ l, <[c := mkChan (buf ch ++ [message]) (cap ch) false]> l) s,
        [Enqueue c message]).
Proof.
  intros Hs Hopen Hroom. unfold Run_deliver_one, try_send. unfold_m.
  rewrite Hs, Hopen. by destruct (decide (len ch < cap ch)).
Qed.

Lemma Run_deliver_one_full (s : State) (message : bytes) (c : nat) (b : bool) (ch : Chan) :
  clients s !! c = Some b → send s !! c = Some ch → closed ch = false →
  ¬ len ch < cap ch →
  Run_deliver_one message c s =
    Ok (tt,
        set_send (λ l, <[c := mkChan (buf ch) (cap ch) true]> l)
                 (set_clients (delete c) s),
        [Close c]).
Proof.
  intros Hc Hs Hopen Hfull. unfold Run_deliver_one, try_send. unfold bind at 1.
  unfold get at 1. rewrite Hs. unfold bind at 1. unfold lift at 1. rewrite Hopen.
  destruct (decide (len ch < cap ch)); [done|].
  by rewrite (remove_client_present _ _ _ _ Hc Hs Hopen).
Qed.

(** *** What the state changes of the registry do to the invariant *)

Lemma was_closed_insert (s : State) (c c' : nat) (ch ch' : Chan) :
  send s !! c = Some ch →
  was_closed (set_send (λ l, <[c := ch']> l) s) c' =
    if decide (c' = c) then closed ch' else was_closed s c'.
Proof.
  intros Hs. unfold was_closed. simpl.
  destruct (decide (c' = c)) as [->|Hne].
  - rewrite list_lookup_insert_eq; [done|]. by eapply lookup_lt_Some.
  - by rewrite list_lookup_insert_ne.
Qed.

Lemma closes_cons (c : nat) (e : Effect) (es : list Effect) :
  closes c (e :: es) = (if is_close c e then 1 else 0) + closes c es.
Proof.
  unfold closes. rewrite filter_cons.
  destruct (is_close c e); by destruct (decide _).
Qed.

Lemma closes_Close (c c' : nat) :
  closes c' [Close c : Effect] = if decide (c' = c) then 1 else 0.
Proof.
  unfold closes. rewrite filter_cons. simpl.
  destruct (decide (c' = c)) as [->|Hne].
  - rewrite bool_decide_eq_true_2 by done. by destruct (decide (true = true)).
  - rewrite bool_decide_eq_false_2 by congruence.
    by destruct (decide (false = true)).
Qed.

(** Deleting [c] from [h.clients] and closing its queue, with [Run]
    moving on to the snapshot entries [fo]. *)
Lemma registry_step_remove (s : State) (c : nat) (ch : Chan)
    (fo : option (bytes * list nat)) :
  registry_inv s → c ∈ dom (clients s) → send s !! c = Some ch →
  (∀ message rest, fo = Some (message, rest) →
     NoDup rest ∧ ∀ c', c' ∈ rest → c' ∈ dom (clients s) ∧ c' ≠ c) →
  registry_step s
    (set_fanout fo
       (set_send (λ l, <[c := mkChan (buf ch) (cap ch) true]> l)
                 (set_clients (delete c) s)))
    [Close c].
Proof.
  intros [Hao Hal Hb Hf] Hin Hs Hfo.
  assert (closed ch = false) as Hopen by (by apply (Hao c ch Hs)).
  split.
  - split; simpl.
    + intros c' ch' Hl. rewrite dom_delete_L.
      destruct (decide (c' = c)) as [->|Hne].
      * rewrite list_lookup_insert_eq in Hl by (by eapply lookup_lt_Some).
        inversion Hl; subst; simpl. set_solver.
      * rewrite list_lookup_insert_ne in Hl by done.
        rewrite <- (Hao c' ch' Hl). set_solver.
    + intros c' Hin'. rewrite dom_delete_L in Hin'.
      apply lookup_lt_is_Some. rewrite length_insert. apply lookup_lt_is_Some.
      apply Hal. set_solver.
    + done.
    + intros m rest Heq. destruct (Hfo m rest Heq) as [Hnd Hall].
      split; [done|]. intros c' Hc'. rewrite dom_delete_L.
      destruct (Hall c' Hc'). set_solver.
  - intros c'. rewrite closes_Close.
    change (was_closed (set_fanout fo ?x) c') with (was_closed x c').
    change (was_closed (set_send ?f (set_clients ?g s)) c')
      with (was_closed (set_send f s) c').
    rewrite (was_closed_insert _ _ _ _ _ Hs). simpl.
    destruct (decide (c' = c)) as [->|Hne]; [|done].
    unfold was_closed. by rewrite Hs, Hopen.
  - simpl. rewrite dom_delete_L.
    assert (unregistered [Close c : Effect] = {[c]}) as -> by set_solver.
    assert (registered [Close c : Effect] = ∅) as -> by set_solver.
    set_solver.
  - intros c'. assert (registered [Close c : Effect] = ∅) as -> by set_solver.
    set_solver.
Qed.

(** Inserting [c] into [h.clients] when its queue is open. *)
Lemma registry_step_insert (s : State) (c : nat) (ch : Chan) (l : LogLine) :
  registry_inv s → send s !! c = Some ch → closed ch = false →
  registry_step s (set_clients (λ m, <[c := true]> m) s) [Insert c; Log l].
Proof.
  intros [Hao Hal Hb Hf] Hs Hopen.
  assert (c ∈ dom (clients s)) as Hin by (by apply (Hao c ch Hs)).
  assert (registered [Insert c; Log l : Effect] = {[c]}) as Hreg by set_solver.
  assert (unregistered [Insert c; Log l : Effect] = ∅) as Hun by set_solver.
  split.
  - split; simpl.
    + intros c' ch' Hl. rewrite dom_insert_L, <- (Hao c' ch' Hl). set_solver.
    + intros c' Hin'. rewrite dom_insert_L in Hin'. apply Hal. set_solver.
    + done.
    + intros m rest Heq. destruct (Hf m rest Heq) as [Hnd Hall].
      split; [done|]. intros c' Hc'. rewrite dom_insert_L. set_solver.
  - intros c'. by rewrite !closes_cons.
  - simpl. rewrite dom_insert_L, Hreg, Hun. set_solver.
  - intros c'. rewrite Hreg, elem_of_singleton. intros ->.
    unfold was_closed. by rewrite Hs.
Qed.

Lemma bind_get {B} (f : State → M B) (s : State) : bind get f s = f s s.
Proof. unfold bind, get. by destruct (f s s) as [[[b s2] e2]|]. Qed.

Lemma bind_Ok {A B} (m : M A) (f : A → M B) (s s1 : State) (a : A) (e1 : list Effect) :
  m s = Ok (a, s1, e1) →
  bind m f s = match f a s1 with
               | Ok (b, s2, e2) => Ok (b, s2, e1 ++ e2)
               | Panic p => Panic p
               end.
Proof. intros Hm. unfold bind. by rewrite Hm. Qed.

Lemma framed_step (m : M unit) (s : State) :
  registry_inv s → registry_framed m →
  ∃ s' es, m s = Ok (tt, s', es) ∧ registry_step s s' es.
Proof.
  intros Hinv Hm.
  destruct (Hm s (inv_broadcast_open _ Hinv)) as ([] & s' & es & Hrun & Hfr).
  exists s', es. split; [done|]. by apply registry_frame_step.
Qed.

(** [ServeWS] makes a client and has it registered. *)
Lemma registry_step_alloc (s : State) (l : LogLine) :
  registry_inv s →
  registry_step s
    (set_clients (λ m, <[length (send s) := true]> m)
                 (set_send (λ l, l ++ [make 256]) s))
    [Insert (length (send s)); Log l].
Proof.
  intros [Hao Hal Hb Hf].
  set (c := length (send s)).
  assert (c ∉ dom (clients s)) as Hfresh.
  { intros Hin. apply Hal, lookup_lt_is_Some in Hin. unfold c in Hin. lia. }
  assert (registered [Insert c; Log l : Effect] = {[c]}) as Hreg by set_solver.
  assert (unregistered [Insert c; Log l : Effect] = ∅) as Hun by set_solver.
  split.
  - split; simpl.
    + intros c' ch' Hl. rewrite dom_insert_L.
      destruct (decide (c' = c)) as [->|Hne].
      * unfold c in Hl. rewrite list_lookup_middle in Hl by done.
        inversion Hl; subst; simpl. set_solver.
      * apply lookup_app_Some in Hl as [Hl|[Hge Hl]].
        -- rewrite <- (Hao c' ch' Hl). set_solver.
        -- apply lookup_lt_Some in Hl. simpl in Hl. unfold c in Hne. lia.
    + intros c' Hin. rewrite dom_insert_L in Hin.
      apply lookup_lt_is_Some. rewrite length_app. simpl.
      apply elem_of_union in Hin as [Hin|Hin].
      * apply elem_of_singleton in Hin. unfold c in Hin. lia.
      * apply Hal, lookup_lt_is_Some in Hin. lia.
    + done.
    + intros m rest Heq. destruct (Hf m rest Heq) as [Hnd Hall].
      split; [done|]. intros c' Hc'. rewrite dom_insert_L. set_solver.
  - intros c'. rewrite !closes_cons. simpl. unfold was_closed. simpl.
    destruct (decide (c' = c)) as [->|Hne].
    + unfold c. rewrite list_lookup_middle by done.
      by rewrite (lookup_ge_None_2 (send s) (length (send s))) by lia.
    + destruct (decide (c' < c)) as [Hlt|Hge].
      * by rewrite lookup_app_l.
      * rewrite (lookup_ge_None_2 (send s ++ [make 256]) c')
          by (rewrite length_app; simpl; unfold c in *; lia).
        by rewrite (lookup_ge_None_2 (send s) c') by (unfold c in *; lia).
  - simpl. rewrite dom_insert_L, Hreg, Hun. set_solver.
  - intros c'. rewrite Hreg, elem_of_singleton. intros ->.
    unfold was_closed. by rewrite lookup_ge_None_2.
Qed.

Lemma registry_quiet_logs (logs : list LogLine) :
  registry_quiet (Log <$> logs : list Effect).
Proof. unfold registry_quiet. apply Forall_fmap, Forall_true. done. Qed.

Lemma ServeWS_step (r : Request) (s : State) :
  registry_inv s →
  ∃ s' es, ServeWS r s = Ok (tt, s', es) ∧ registry_step s s' es.
Proof.
  intros Hinv. unfold ServeWS. destruct (Upgrade r) as [[] logs].
  - eexists _, _. split; [reflexivity|]. simpl.
    apply registry_step_trans with (s1 := s).
    + apply registry_frame_step; [done|]. split; try done.
      apply registry_quiet_logs.
    + by apply registry_step_alloc.
  - apply framed_step; [done|]. framed. apply registry_quiet_logs.
Qed.

Lemma Run_unregister_step (c : nat) (s : State) :
  registry_inv s → fanout s = None →
  ∃ s' es, Run_unregister c s = Ok (tt, s', es) ∧ registry_step s s' es.
Proof.
  intros Hinv Hidle. destruct (clients s !! c) as [b|] eqn:Hc.
  - assert (c ∈ dom (clients s)) as Hin by (apply elem_of_dom; eauto).
    destruct (inv_allocated _ Hinv c Hin) as [ch Hs].
    assert (closed ch = false) as Hopen by (by apply (inv_active_open _ Hinv c ch Hs)).
    rewrite (Run_unregister_present _ _ _ _ Hc Hs Hopen).
    eexists _, _. split; [reflexivity|].
    assert (registry_step s
              (set_send (λ l, <[c := mkChan (buf ch) (cap ch) true]> l)
                        (set_clients (delete c) s))
              [Close c]) as Hst.
    { apply (registry_step_remove s c ch (fanout s)); try done.
      intros m rest Heq. congruence. }
    apply (registry_step_trans _ _ _ [Close c] [Log _] Hst).
    apply registry_frame_step; [apply (step_inv _ _ _ Hst)|].
    split; try done. repeat constructor.
  - rewrite (Run_unregister_absent _ _ Hc).
    eexists _, _. split; [reflexivity|].
    apply registry_frame_step; [done|]. split; try done. repeat constructor.
Qed.

Lemma Run_broadcast_next_step (s : State) :
  registry_inv s →
  ∃ s' es, Run_broadcast_next s = Ok (tt, s', es) ∧ registry_step s s' es.
Proof.
  intros Hinv. unfold Run_broadcast_next. rewrite bind_get; cbv beta.
  destruct (fanout s) as [[message [|c rest]]|] eqn:Hfan;
    [apply framed_step; [done | framed] |
     | apply framed_step; [done | framed]].
  destruct (inv_fanout _ Hinv _ _ Hfan) as [Hnd Hall].
  apply NoDup_cons in Hnd as [Hnotin Hnd].
  assert (c ∈ dom (clients s)) as Hin by (apply Hall; left).
  destruct (inv_allocated _ Hinv c Hin) as [ch Hs].
  assert (closed ch = false) as Hopen by (by apply (inv_active_open _ Hinv c ch Hs)).
  assert (∀ m' rest', next_fanout message rest = Some (m', rest') →
            NoDup rest' ∧ ∀ c', c' ∈ rest' → c' ∈ dom (clients s) ∧ c' ≠ c) as Hnext.
  { intros m' rest' Heq. destruct rest as [|c0 rest0]; [done|].
    inversion Heq; subst. split; [done|]. intros c' Hc'.
    split; [apply Hall; by right | intros ->; done]. }
  erewrite bind_Ok by reflexivity.
  destruct (decide (len ch < cap ch)) as [Hroom|Hfull].
  - rewrite (Run_deliver_one_room _ _ _ ch) by done.
    eexists _, _. split; [reflexivity|]. simpl.
    apply registry_step_quiet; simpl; try done.
    + rewrite list_fmap_insert. simpl. rewrite <- Hopen.
      apply list_insert_id. by rewrite list_lookup_fmap, Hs.
    + apply (inv_broadcast_open _ Hinv).
    + intros m' rest' Heq. destruct (Hnext m' rest' Heq) as [? Hall'].
      split; [done|]. intros c' Hc'. by apply Hall'.
    + repeat constructor.
  - apply elem_of_dom in Hin as [b Hc].
    rewrite (Run_deliver_one_full _ _ _ b ch) by done.
    eexists _, _. split; [reflexivity|]. simpl.
    apply (registry_step_remove s c ch (next_fanout message rest)); try done.
    apply elem_of_dom; eauto.
Qed.

Lemma Run_broadcast_begin_step (snapshot : list nat) (s : State) :
  registry_inv s → is_snapshot snapshot s →
  ∃ s' es, Run_broadcast_begin snapshot s = Ok (tt, s', es) ∧ registry_step s s' es.
Proof.
  intros Hinv [Hnd Hdom]. unfold Run_broadcast_begin. rewrite bind_get; cbv beta.
  destruct (buf (broadcast s)) as [|message queued];
    [apply framed_step; [done | framed]|].
  eexists _, _. split; [reflexivity|]. simpl.
  apply registry_step_quiet; simpl; try done.
  - apply (inv_broadcast_open _ Hinv).
  - intros m' rest' Heq. destruct snapshot as [|c0 rest0]; [done|].
    inversion Heq; subst. split; [done|]. intros c Hc.
    rewrite <- Hdom. by apply elem_of_list_to_set.
  - constructor.
Qed.

Lemma writePump_recv_step (c : nat) (s : State) :
  registry_inv s →
  ∃ s' es, writePump_recv c s = Ok (tt, s', es) ∧ registry_step s s' es.
Proof.
  intros Hinv. unfold writePump_recv. rewrite bind_get; cbv beta.
  destruct (send s !! c) as [ch|] eqn:Hs; [|apply framed_step; [done | framed]].
  destruct (buf ch) as [|message queued].
  - destruct (closed ch); apply framed_step; try done; framed.
  - eexists _, _. split; [reflexivity|]. simpl.
    apply registry_frame_step; [done|]. split; simpl; try done.
    + rewrite list_fmap_insert. simpl.
      apply list_insert_id. by rewrite list_lookup_fmap, Hs.
    + repeat constructor.
Qed.

(** Every event keeps the registry in order. *)
Lemma exec_step (ev : Event payload) (s : State) :
  registry_inv s →
  ∃ s' es, exec ev s = Ok (tt, s', es) ∧ registry_step s s' es.
Proof.
  intros Hinv. unfold exec. rewrite bind_get; cbv beta.
  destruct ev as [r|c|c|snapshot| |c|t d|t d|d|t|t|]; cbv beta iota.
  - destruct (fst (Upgrade r) && negb (idle s));
      [apply framed_step; [done | framed] | by apply ServeWS_step].
  - destruct (idle s && bool_decide (c ∈ dom (clients s))) eqn:Hcond;
      [|apply framed_step; [done | framed]].
    apply andb_true_iff in Hcond as [_ Hin]. apply bool_decide_eq_true_1 in Hin.
    destruct (inv_allocated _ Hinv c Hin) as [ch Hs].
    rewrite Run_register_eq. eexists _, _. split; [reflexivity|].
    apply (registry_step_insert s c ch); try done.
    by apply (inv_active_open _ Hinv c ch Hs).
  - destruct (idle s) eqn:Hidle; [|apply framed_step; [done | framed]].
    apply Run_unregister_step; [done|].
    unfold idle in Hidle. by destruct (fanout s).
  - destruct (idle s && bool_decide (is_snapshot snapshot s)) eqn:Hcond;
      [|apply framed_step; [done | framed]].
    apply andb_true_iff in Hcond as [_ Hsnap]. apply bool_decide_eq_true_1 in Hsnap.
    by apply Run_broadcast_begin_step.
  - by apply Run_broadcast_next_step.
  - by apply writePump_recv_step.
  - apply framed_step; [done | apply framed_BroadcastMessage].
  - apply framed_step; [done | apply framed_BroadcastMessageBatched].
  - destruct (decide (0 ≤ d)%Z); apply framed_step; try done; framed.
  - apply framed_step; [done | apply framed_timer_expire].
  - apply framed_step; [done | apply framed_timer_func].
  - apply framed_step; [done | apply framed_Shutdown].
Qed.

Lemma registry_step_refl (s : State) : registry_inv s → registry_step s s [].
Proof. intros Hinv. apply registry_frame_step; [done | apply registry_frame_refl]. Qed.

Lemma run_step (schedule : list (Event payload)) (s : State) :
  registry_inv s →
  ∃ s' es, run schedule s = Ok (tt, s', es) ∧ registry_step s s' es.
Proof.
  revert s. induction schedule as [|ev rest IH]; intros s Hinv; simpl.
  - exists s, []. split; [done | by apply registry_step_refl].
  - destruct (exec_step ev s Hinv) as (s1 & e1 & Hrun1 & Hst1).
    destruct (IH s1 (step_inv _ _ _ Hst1)) as (s2 & e2 & Hrun2 & Hst2).
    exists s2, (e1 ++ e2). split.
    + unfold bind. by rewrite Hrun1, Hrun2.
    + by eapply registry_step_trans.
Qed.

Lemma NewHub_inv : registry_inv NewHub.
Proof. split; simpl; done. Qed.

(** *** The delivery loop *)

(** What the loop leaves in the queue of a snapshotted client: the
    message appended when there was room, the queue closed when it was
    full. *)
Lemma Run_deliver_spec (message : bytes) (snapshot : list nat) (s : State) :
  registry_inv s → fanout s = None → NoDup snapshot →
  (∀ c, c ∈ snapshot → c ∈ dom (clients s)) →
  ∃ s' es,
    Run_deliver message snapshot s = Ok (tt, s', es) ∧
    registry_step s s' es ∧ fanout s' = None ∧
    ∀ c ch, send s !! c = Some ch →
      send s' !! c =
        Some (if decide (c ∈ snapshot)
              then if decide (len ch < cap ch)
                   then mkChan (buf ch ++ [message]) (cap ch) false
                   else mkChan (buf ch) (cap ch) true
              else ch).
Proof.
  revert s. induction snapshot as [|c rest IH]; intros s Hinv Hidle Hnd Hall.
  - exists s, []. split; [done|]. split; [by apply registry_step_refl|].
    split; [done|]. intros c ch Hs. rewrite Hs.
    by rewrite decide_False by (apply not_elem_of_nil).
  - apply NoDup_cons in Hnd as [Hnotin Hnd].
    assert (c ∈ dom (clients s)) as Hin by (apply Hall; left).
    destruct (inv_allocated _ Hinv c Hin) as [ch0 Hs0].
    assert (closed ch0 = false) as Hopen
      by (by apply (inv_active_open _ Hinv c ch0 Hs0)).
    simpl.
    assert (∃ s1 e1, Run_deliver_one message c s = Ok (tt, s1, e1) ∧
              registry_step s s1 e1 ∧ fanout s1 = None ∧
              (∀ c', c' ∈ rest → c' ∈ dom (clients s1)) ∧
              send s1 = <[c := if decide (len ch0 < cap ch0)
                               then mkChan (buf ch0 ++ [message]) (cap ch0) false
                               else mkChan (buf ch0) (cap ch0) true]> (send s))
      as (s1 & e1 & Hrun1 & Hst1 & Hidle1 & Hall1 & Hsend1).
    { destruct (decide (len ch0 < cap ch0)) as [Hroom|Hfull].
      - rewrite (Run_deliver_one_room _ _ _ ch0) by done.
        eexists _, _. split; [reflexivity|]. split; [|split; [done|split]].
        + apply registry_step_quiet; simpl; try done.
          * rewrite list_fmap_insert. simpl. rewrite <- Hopen.
            apply list_insert_id. by rewrite list_lookup_fmap, Hs0.
          * apply (inv_broadcast_open _ Hinv).
          * intros m' rest' Heq. congruence.
          * repeat constructor.
        + intros c' Hc'. simpl. apply Hall. by right.
        + done.
      - apply elem_of_dom in Hin as [b Hc].
        rewrite (Run_deliver_one_full _ _ _ b ch0) by done.
        eexists _, _. split; [reflexivity|]. split; [|split; [done|split]].
        + apply (registry_step_remove s c ch0 (fanout s));
            [done | apply elem_of_dom; eauto | done |].
          intros m' rest' Heq. congruence.
        + intros c' Hc'. simpl. rewrite dom_delete_L.
          assert (c' ≠ c) by (intros ->; done).
          assert (c' ∈ dom (clients s)) by (apply Hall; by right).
          set_solver.
        + done. }
    destruct (IH s1 (step_inv _ _ _ Hst1) Hidle1 Hnd Hall1)
      as (s2 & e2 & Hrun2 & Hst2 & Hidle2 & Hsend2).
    exists s2, (e1 ++ e2). split; [|split; [|split]].
    + unfold bind. by rewrite Hrun1, Hrun2.
    + by eapply registry_step_trans.
    + done.
    + intros c' ch Hs.
      destruct (decide (c' = c)) as [->|Hne].
      * assert (ch = ch0) as -> by congruence.
        rewrite (Hsend2 c (if decide (len ch0 < cap ch0)
                           then mkChan (buf ch0 ++ [message]) (cap ch0) false
                           else mkChan (buf ch0) (cap ch0) true)).
        -- destruct (decide (c ∈ rest)) as [?|_]; [done|].
           destruct (decide (c ∈ c :: rest)) as [_|Hn]; [done|].
           exfalso. apply Hn. left.
        -- rewrite Hsend1. apply list_lookup_insert_eq. by eapply lookup_lt_Some.
      * rewrite (Hsend2 c' ch).
        -- destruct (decide (c' ∈ rest)) as [Hr|Hr];
             destruct (decide (c' ∈ c :: rest)) as [Hcr|Hcr]; try done.
           ++ exfalso. apply Hcr. by right.
           ++ exfalso. apply elem_of_cons in Hcr as [?|?]; done.
        -- rewrite Hsend1. by rewrite list_lookup_insert_ne.
Qed.

(** Once a queue is closed it stays closed, is never closed again, and
    its client never returns to [h.clients]. *)
Lemma run_after_close (schedule : list (Event payload)) (s : State) (c : nat) :
  registry_inv s → was_closed s c = true →
  ∃ s' es, run schedule s = Ok (tt, s', es) ∧
           closes c es = 0 ∧ c ∉ dom (clients s').
Proof.
  intros Hinv Hcl.
  destruct (run_step schedule s Hinv) as (s' & es & Hrun & Hst).
  exists s', es. split; [done|].
  pose proof (step_closes _ _ _ Hst c) as Hc. rewrite Hcl in Hc.
  destruct (was_closed s' c) eqn:Hcl'; [|lia].
  split; [lia|].
  unfold was_closed in Hcl'.
  destruct (send s' !! c) as [ch|] eqn:Hs; [|done].
  intros Hin. apply (inv_active_open _ (step_inv _ _ _ Hst) c ch Hs) in Hin.
  congruence.
Qed.

(** *** The registry: main theorems *)

(** C1. In a broadcast delivery pass, a snapshotted client whose queue is
    full is evicted: it leaves [h.clients] and its queue is closed by
    exactly one [close], and however the hub is driven afterwards that
    queue is never closed again; every other snapshotted client gets the
    message appended to its queue, whatever happened to its
    neighbours. *)
Theorem broadcast_evicts_full_queue
    (s : State) (snapshot : list nat) (message : bytes) (queued : list bytes) :
  registry_inv s → fanout s = None → is_snapshot snapshot s →
  buf (broadcast s) = message :: queued →
  ∃ s' es,
    Run_broadcast snapshot s = Ok (tt, s', es) ∧ registry_inv s' ∧
    ∀ c ch, c ∈ snapshot → send s !! c = Some ch →
      if decide (len ch < cap ch)
      then (c ∈ dom (clients s') ∧ closes c es = 0 ∧
            send s' !! c = Some (mkChan (buf ch ++ [message]) (cap ch) false))
      else ((c ∉ dom (clients s')) ∧ closes c es = 1 ∧
            send s' !! c = Some (mkChan (buf ch) (cap ch) true) ∧
            ∀ schedule, ∃ s'' es',
              run schedule s' = Ok (tt, s'', es') ∧
              closes c es' = 0 ∧ c ∉ dom (clients s'')).
Proof.
  intros Hinv Hidle [Hnd Hdom] Hbuf.
  set (s0 := set_broadcast
               (mkChan queued (cap (broadcast s)) (closed (broadcast s))) s).
  assert (registry_inv s0) as Hinv0.
  { destruct Hinv as [Hao Hal Hb Hf]. by split. }
  destruct (Run_deliver_spec message snapshot s0 Hinv0 Hidle Hnd)
    as (s' & es & Hrun & Hst & _ & Hsend).
  { intros c Hc. simpl. rewrite <- Hdom. by apply elem_of_list_to_set. }
  exists s', es. split; [|split; [apply (step_inv _ _ _ Hst)|]].
  - unfold Run_broadcast. rewrite bind_get; cbv beta. rewrite Hbuf.
    erewrite bind_Ok by reflexivity. fold s0. by rewrite Hrun.
  - intros c ch Hc Hs.
    assert (closed ch = false) as Hopen.
    { apply (inv_active_open _ Hinv c ch Hs).
      rewrite <- Hdom. by apply elem_of_list_to_set. }
    pose proof (Hsend c ch Hs) as Hs'.
    rewrite decide_True in Hs' by done.
    pose proof (step_closes _ _ _ Hst c) as Hcl.
    assert (was_closed s0 c = false) as Hw0
      by (unfold was_closed; simpl; by rewrite Hs, Hopen).
    rewrite Hw0 in Hcl. unfold was_closed in Hcl. rewrite Hs' in Hcl.
    destruct (decide (len ch < cap ch)) as [Hroom|Hfull]; simpl in Hcl.
    + split; [|split; [lia | done]].
      by apply (inv_active_open _ (step_inv _ _ _ Hst) c _ Hs').
    + split; [|split; [lia | split; [done|]]].
      * intros Hin.
        by apply (inv_active_open _ (step_inv _ _ _ Hst) c _ Hs') in Hin.
      * intros schedule. apply run_after_close; [apply (step_inv _ _ _ Hst)|].
        unfold was_closed. by rewrite Hs'.
Qed.

(** C2. In every state the hub can reach, a connection is in [h.clients]
    exactly when its [send] queue is open; no step panics, so nothing is
    ever sent on a closed queue and no queue is closed twice; a queue
    that is closed has seen exactly one [close], an open one none. *)
Theorem registry_invariant (schedule : list (Event payload)) :
  ∃ s es,
    run schedule NewHub = Ok (tt, s, es) ∧
    (∀ c ch, send s !! c = Some ch →
       (c ∈ dom (clients s) ↔ closed ch = false) ∧
       closes c es = (if closed ch then 1 else 0)) ∧
    (∀ c, c ∈ dom (clients s) → is_Some (send s !! c)) ∧
    ∀ ev, ∃ s' es', exec ev s = Ok (tt, s', es') ∧ registry_inv s'.
Proof.
  destruct (run_step schedule NewHub NewHub_inv) as (s & es & Hrun & Hst).
  exists s, es. split; [done|]. split; [|split].
  - intros c ch Hs. split.
    + by apply (inv_active_open _ (step_inv _ _ _ Hst)).
    + pose proof (step_closes _ _ _ Hst c) as Hc.
      unfold was_closed in Hc. simpl in Hc. rewrite Hs in Hc. lia.
  - apply (inv_allocated _ (step_inv _ _ _ Hst)).
  - intros ev.
    destruct (exec_step ev s (step_inv _ _ _ Hst)) as (s' & es' & Hrun' & Hst').
    exists s', es'. split; [done | apply (step_inv _ _ _ Hst')].
Qed.

(** C3. Unregistering a connection twice or more is harmless: the first
    call takes it out of [h.clients] and closes its queue if it was
    still there, and leaves the queue closed in any case; every further
    call returns without a panic, changes nothing and closes nothing. *)
Theorem unregister_twice (s : State) (c n : nat) :
  registry_inv s →
  ∃ s1 es1,
    Run_unregister c s = Ok (tt, s1, es1) ∧
    clients s1 = delete c (clients s) ∧
    (∀ ch, send s1 !! c = Some ch → closed ch = true) ∧
    closes c es1 = (if decide (c ∈ dom (clients s)) then 1 else 0) ∧
    times n (Run_unregister c) s1 =
      Ok (tt, s1, replicate n (Log (LogClientDisconnected (GetClientCount s1)))).
Proof.
  intros Hinv. destruct (clients s !! c) as [b|] eqn:Hc.
  - assert (c ∈ dom (clients s)) as Hin by (apply elem_of_dom; eauto).
    destruct (inv_allocated _ Hinv c Hin) as [ch Hs].
    assert (closed ch = false) as Hopen
      by (by apply (inv_active_open _ Hinv c ch Hs)).
    rewrite (Run_unregister_present _ _ _ _ Hc Hs Hopen).
    eexists _, _. split; [reflexivity|]. split; [done|]. split; [|split].
    + simpl. intros ch'.
      rewrite list_lookup_insert_eq by (by eapply lookup_lt_Some).
      by intros [= <-].
    + rewrite decide_True by done. rewrite !closes_cons. simpl.
      by rewrite bool_decide_eq_true_2.
    + apply times_Run_unregister_absent. simpl. apply lookup_delete_eq.
  - assert (c ∉ dom (clients s)) as Hnin by (by apply not_elem_of_dom).
    rewrite (Run_unregister_absent _ _ Hc).
    eexists _, _. split; [reflexivity|]. split; [|split; [|split]].
    + by rewrite delete_id.
    + intros ch Hs. destruct (closed ch) eqn:Hcl; [done|].
      exfalso. apply Hnin. by apply (inv_active_open _ Hinv c ch Hs).
    + by rewrite decide_False by done.
    + by apply times_Run_unregister_absent.
Qed.

(** C10. Registering is idempotent: a second registration of the same
    connection changes neither [h.clients] nor the count, and
    registering a connection that is already active leaves the active
    set as it was.  In every state the hub can reach, [GetClientCount]
    is the number of distinct connections that were registered and whose
    queue has not been closed since. *)
Theorem register_idempotent_count
    (s : State) (c : nat) (schedule : list (Event payload)) :
  (∃ s1 es1 s2 es2,
     Run_register c s = Ok (tt, s1, es1) ∧
     Run_register c s1 = Ok (tt, s2, es2) ∧
     clients s2 = clients s1 ∧
     GetClientCount s2 = GetClientCount s1 ∧
     dom (clients s1) =
       (if decide (c ∈ dom (clients s)) then dom (clients s)
        else {[c]} ∪ dom (clients s)) ∧
     GetClientCount s1 =
       (if decide (c ∈ dom (clients s)) then GetClientCount s
        else S (GetClientCount s))) ∧
  (∃ s' es,
     run schedule NewHub = Ok (tt, s', es) ∧
     dom (clients s') = registered es ∖ unregistered es ∧
     GetClientCount s' = size (registered es ∖ unregistered es)).
Proof.
  split.
  - rewrite Run_register_eq. eexists _, _. rewrite Run_register_eq.
    eexists _, _. split; [reflexivity|]. split; [reflexivity|].
    unfold GetClientCount. simpl. rewrite insert_insert_eq.
    split; [done|]. split; [done|]. rewrite <- !size_dom, dom_insert_L.
    destruct (decide (c ∈ dom (clients s))) as [Hin|Hnin].
    + assert ({[c]} ∪ dom (clients s) = dom (clients s)) as -> by set_solver.
      done.
    + split; [done|]. rewrite size_union by set_solver.
      by rewrite size_singleton.
  - destruct (run_step schedule NewHub NewHub_inv) as (s' & es & Hrun & Hst).
    exists s', es. split; [done|].
    pose proof (step_clients _ _ _ Hst) as Hd. simpl in Hd.
    rewrite dom_empty_L, (left_id_L ∅ (∪)) in Hd.
    split; [done|]. unfold GetClientCount. by rewrite <- size_dom, Hd.
Qed.

(** *** Broadcasting and batching: main theorems *)

(** C6. [BroadcastMessage] always returns, without blocking and without
    an error, for every payload: a payload that cannot be marshalled is
    logged and dropped and the state is untouched; with [h.broadcast]
    full the message is logged and dropped and the state is untouched;
    otherwise the encoded message is appended to [h.broadcast]. *)
Theorem BroadcastMessage_never_blocks
    (s : State) (eventType : string) (data : Data payload) :
  closed (broadcast s) = false →
  ∃ s' es,
    BroadcastMessage eventType data s = Ok (tt, s', es) ∧
    match json_Marshal (mkMessage eventType data) with
    | None => s' = s ∧ es = [Log LogMarshalError]
    | Some jsonData =>
        if decide (len (broadcast s) < cap (broadcast s))
        then s' = set_broadcast
                    (mkChan (buf (broadcast s) ++ [jsonData])
                            (cap (broadcast s)) false) s
             ∧ es = [Submit jsonData]
        else s' = s ∧ es = [Log LogMessageDropped]
    end.
Proof.
  intros Hb. unfold BroadcastMessage.
  destruct (json_Marshal (mkMessage eventType data)) as [jsonData|].
  - unfold submit, try_send. unfold_m. rewrite Hb.
    destruct (decide (len (broadcast s) < cap (broadcast s)));
      simpl; eexists _, _; split; done.
  - unfold_m. eexists _, _. split; done.
Qed.

(** *** Batching step by step *)

Lemma alter_snoc {A} (f : A → A) (l : list A) (x : A) :
  alter f (length l) (l ++ [x]) = l ++ [f x].
Proof. induction l as [|a l IH]; simpl; [done|]. f_equal. apply IH. Qed.

Lemma lookup_snoc {A} (l : list A) (x : A) : (l ++ [x]) !! length l = Some x.
Proof. by apply list_lookup_middle. Qed.

Lemma insert_snoc {A} (l : list A) (x y : A) :
  <[length l := y]> (l ++ [x]) = l ++ [y].
Proof. induction l as [|a l IH]; simpl; [done|]. f_equal. apply IH. Qed.

Lemma run_app (l1 l2 : list (Event payload)) (s : State) :
  run (l1 ++ l2) s = bind (run l1) (λ _, run l2) s.
Proof.
  revert s. induction l1 as [|ev l1 IH]; intros s; simpl.
  - unfold bind, ret. by destruct (run l2 s) as [[[[] s2] e2]|].
  - unfold bind. destruct (exec ev s) as [[[[] s1] e1]|]; [|done].
    rewrite IH. unfold bind.
    destruct (run l1 s1) as [[[[] s2] e2]|]; [|done].
    destruct (run l2 s2) as [[[[] s3] e3]|]; [|done].
    by rewrite app_assoc.
Qed.

Lemma run_singleton (ev : Event payload) (s : State) : run [ev] s = exec ev s.
Proof.
  simpl. unfold bind, ret.
  destruct (exec ev s) as [[[[] s1] e1]|]; [|done]. by rewrite app_nil_r.
Qed.

(** An add that stays below the threshold only appends, and arms the
    deadline when none is armed. *)
Lemma BroadcastMessageBatched_below (s : State) (eventType : string) (data : Data payload) :
  S (length (batchBuffer s)) < maxBatchSize →
  BroadcastMessageBatched eventType data s =
    Ok (tt,
        mkState (clients s) (broadcast s)
                (batchBuffer s ++ [mkMessage eventType data])
                (match batchTimer s with
                 | None => Some (length (timers s))
                 | Some t => Some t
                 end)
                (send s)
                (match batchTimer s with
                 | None => timers s ++ [mkTimer (now s + batchWindow) Armed]
                 | Some _ => timers s
                 end)
                (now s) (fanout s),
        []).
Proof.
  intros Hlt. destruct s as [cl br bb bt sd tm nw fo]. simpl in *.
  unfold BroadcastMessageBatched. unfold_m. simpl.
  rewrite decide_False by (rewrite length_app; simpl; lia).
  by destruct bt.
Qed.

(** An add that reaches the threshold appends and flushes. *)
Lemma BroadcastMessageBatched_at (s : State) (eventType : string) (data : Data payload) :
  maxBatchSize ≤ S (length (batchBuffer s)) →
  BroadcastMessageBatched eventType data s =
    flushBatch (set_batchBuffer (batchBuffer s ++ [mkMessage eventType data]) s).
Proof.
  intros Hge. unfold BroadcastMessageBatched. unfold_m. simpl.
  rewrite decide_True by (rewrite length_app; simpl; lia).
  by destruct (flushBatch _) as [[[[] s2] e2]|].
Qed.

Lemma adds_below (ms : list (string * Data payload)) (s : State) :
  length (batchBuffer s) + length ms < maxBatchSize →
  run (map (λ m, EvBroadcastMessageBatched m.1 m.2) ms) s =
    Ok (tt,
        mkState (clients s) (broadcast s)
                (batchBuffer s ++ map (λ m, mkMessage m.1 m.2) ms)
                (match ms, batchTimer s with
                 | _ :: _, None => Some (length (timers s))
                 | _, bt => bt
                 end)
                (send s)
                (match ms, batchTimer s with
                 | _ :: _, None => timers s ++ [mkTimer (now s + batchWindow) Armed]
                 | _, _ => timers s
                 end)
                (now s) (fanout s),
        []).
Proof.
  revert s. induction ms as [|[t d] ms IH]; intros s Hlt.
  - destruct s. simpl. by rewrite app_nil_r.
  - simpl in Hlt. cbn [map run]. unfold bind at 1.
    unfold exec. rewrite bind_get; cbv beta iota.
    rewrite BroadcastMessageBatched_below by lia.
    rewrite IH by (simpl; rewrite length_app; simpl; lia).
    destruct s as [cl br bb bt sd tm nw fo]. simpl.
    rewrite <- app_assoc. simpl.
    destruct bt, ms; done.
Qed.

(** A flush of a non-empty buffer: the timer is stopped and cleared, the
    buffer taken, and the batch submitted to [h.broadcast], marshalling
    and room permitting. *)
Lemma flushBatch_cons (s : State) (m : Message payload) (ms : list (Message payload)) :
  batchBuffer s = m :: ms → closed (broadcast s) = false →
  flushBatch s =
    let s0 := mkState (clients s) (broadcast s) [] None (send s)
                (match batchTimer s with
                 | Some t => alter Stop t (timers s)
                 | None => timers s
                 end)
                (now s) (fanout s) in
    match json_Marshal (mkMessage "batch" (DMessages (m :: ms))) with
    | None => Ok (tt, s0, [Flush (m :: ms); Log LogBatchMarshalError])
    | Some jsonData =>
        if decide (len (broadcast s) < cap (broadcast s))
        then Ok (tt,
                 set_broadcast (mkChan (buf (broadcast s) ++ [jsonData])
                                       (cap (broadcast s)) false) s0,
                 [Flush (m :: ms); Submit jsonData])
        else Ok (tt, s0, [Flush (m :: ms); Log LogBatchDropped])
    end.
Proof.
  intros Hbb Hb. destruct s as [cl br bb bt sd tm nw fo]. simpl in *. subst bb.
  unfold flushBatch, stop_batchTimer, submit, try_send. unfold_m. simpl.
  destruct bt; simpl;
    destruct (json_Marshal _); simpl; rewrite ?Hb; try done;
    destruct (decide (len br < cap br)); done.
Qed.

(** A flush with nothing pending does nothing, and so does the timer
    function once a flush has cleared [batchTimer]. *)
Lemma flushBatch_nil (s : State) :
  batchBuffer s = [] → flushBatch s = Ok (tt, s, []).
Proof. intros Hbb. unfold flushBatch. unfold_m. by rewrite Hbb. Qed.

Lemma batchTimer_func_nil (s : State) :
  batchTimer s = None → batchTimer_func s = Ok (tt, s, []).
Proof. intros Hbt. unfold batchTimer_func. unfold_m. by rewrite Hbt. Qed.

(** C4. From an empty pending sequence, [maxBatchSize] adds in a row
    flush exactly once, with all of them in the batch in the order they
    were added; afterwards nothing is pending, [batchTimer] is nil and
    the deadline armed by the first add is stopped. *)
Theorem threshold_flushes_once (s : State) (ms : list (string * Data payload)) :
  batchBuffer s = [] → closed (broadcast s) = false →
  length ms = maxBatchSize →
  ∃ s' es,
    run (map (λ m, EvBroadcastMessageBatched m.1 m.2) ms) s = Ok (tt, s', es) ∧
    flushes es = [map (λ m, mkMessage m.1 m.2) ms] ∧
    batchBuffer s' = [] ∧ batchTimer s' = None ∧
    timers s' = match batchTimer s with
                | None => timers s ++ [mkTimer (now s + batchWindow) Stopped]
                | Some t => alter Stop t (timers s)
                end.
Proof.
  intros Hbb Hb Hlen.
  induction ms as [|p pre _] using rev_ind; [done|].
  rewrite length_app in Hlen. simpl in Hlen.
  destruct pre as [|q pre]; [done|].
  rewrite map_app, run_app.
  erewrite bind_Ok
    by (apply adds_below; rewrite Hbb; unfold maxBatchSize in *; simpl in *; lia).
  cbv beta. cbn [map]. rewrite run_singleton.
  unfold exec. rewrite bind_get; cbv beta iota.
  rewrite BroadcastMessageBatched_at
    by (simpl; rewrite Hbb; simpl; rewrite List.length_map;
        unfold maxBatchSize in *; simpl in *; lia).
  destruct s as [cl br bb bt sd tm nw fo]. simpl in Hbb, Hb. subst bb.
  cbn [clients broadcast batchBuffer batchTimer send timers now fanout
       set_batchBuffer map app].
  erewrite flushBatch_cons by (simpl; done).
  simpl.
  destruct (json_Marshal _) as [jsonData|];
    [destruct (decide (len br < cap br))|];
    (eexists _, _; split; [reflexivity|]; simpl;
     split; [by rewrite map_app|]; split; [done|]; split; [done|];
     destruct bt; [done | by rewrite alter_snoc]).
Qed.


Lemma run_cons (ev : Event payload) (rest : list (Event payload)) (s : State) :
  run (ev :: rest) s = bind (exec ev) (λ _, run rest) s.
Proof. reflexivity. Qed.

(** One call below the threshold, as the first event of a schedule. *)
Lemma run_add_below (s : State) (eventType : string) (data : Data payload)
    (rest : list (Event payload)) :
  S (length (batchBuffer s)) < maxBatchSize →
  run (EvBroadcastMessageBatched eventType data :: rest) s =
    run rest
      (mkState (clients s) (broadcast s)
               (batchBuffer s ++ [mkMessage eventType data])
               (match batchTimer s with
                | None => Some (length (timers s))
                | Some t => Some t
                end)
               (send s)
               (match batchTimer s with
                | None => timers s ++ [mkTimer (now s + batchWindow) Armed]
                | Some _ => timers s
                end)
               (now s) (fanout s)).
Proof.
  intros Hlt. rewrite run_cons. unfold bind at 1, exec at 1. rewrite bind_get; cbv beta iota.
  rewrite BroadcastMessageBatched_below by done.
  by destruct (run rest _) as [[[[] s2] e2]|].
Qed.

Ltac state_norm :=
  unfold set_clients, set_broadcast, set_batchBuffer, set_batchTimer,
    set_send, set_timers, set_now, set_fanout;
  cbn [clients broadcast batchBuffer batchTimer send timers now fanout].

Ltac add_below :=
  rewrite run_add_below; [|simpl; unfold maxBatchSize; lia];
  cbn [clients broadcast batchBuffer batchTimer send timers now fanout app].

(** C5. Fifteen calls [broadcastBatched("tick", f i)], i = 0..14, in a
    row put exactly one batch on [h.broadcast], the ticks 0 to 9 in
    order, flushed by the tenth call; ticks 10 to 14 stay pending under
    a deadline one batch window away, which cannot fire earlier.  Once
    the window has elapsed the timer fires and its function puts the
    second batch, ticks 10 to 14 in order, on [h.broadcast]; nothing is
    pending afterwards. *)
Theorem fifteen_ticks_two_batches
    (s : State) (f : nat → payload) (j1 j2 : bytes) :
  batchBuffer s = [] → batchTimer s = None → closed (broadcast s) = false →
  len (broadcast s) + 2 ≤ cap (broadcast s) →
  json_Marshal (mkMessage "batch" (DMessages (map (tick_message f) (seq 0 10)))) = Some j1 →
  json_Marshal (mkMessage "batch" (DMessages (map (tick_message f) (seq 10 5)))) = Some j2 →
  ∃ s1 s2,
    run (map (tick_call f) (seq 0 15)) s =
      Ok (tt, s1, [Flush (map (tick_message f) (seq 0 10)); Submit j1]) ∧
    buf (broadcast s1) = buf (broadcast s) ++ [j1] ∧
    batchBuffer s1 = map (tick_message f) (seq 10 5) ∧
    batchTimer s1 = Some (S (length (timers s))) ∧
    timers s1 !! S (length (timers s)) = Some (mkTimer (now s + batchWindow) Armed) ∧
    exec (EvTimerExpire (S (length (timers s)))) s1 = Ok (tt, s1, []) ∧
    run [EvSleep batchWindow;
         EvTimerExpire (S (length (timers s)));
         EvTimerFunc (S (length (timers s)))] s1 =
      Ok (tt, s2, [Flush (map (tick_message f) (seq 10 5)); Submit j2]) ∧
    buf (broadcast s2) = buf (broadcast s) ++ [j1; j2] ∧
    batchBuffer s2 = [] ∧ batchTimer s2 = None.
Proof.
  intros Hbb Hbt Hb Hroom Hj1 Hj2.
  destruct s as [cl br bb bt sd tm nw fo]. simpl in Hbb, Hbt, Hb, Hroom.
  subst bb bt. cbn [clients broadcast batchBuffer batchTimer send timers now fanout].
  cbn [map seq] in *. unfold tick_call, tick_message in *.
  remember (S (length tm)) as t1 eqn:Ht1.
  assert (t1 = length (tm ++ [mkTimer (nw + batchWindow) Stopped])) as Ht1'
    by (rewrite length_app; simpl; lia).
  clear Ht1. rename Ht1' into Ht1.
  eexists _, _. split.
  { do 9 add_below.
    rewrite run_cons. unfold bind at 1, exec at 1. rewrite bind_get; cbv beta iota.
    rewrite BroadcastMessageBatched_at by (simpl; unfold maxBatchSize; lia).
    erewrite flushBatch_cons by (simpl; done).
    cbn [clients broadcast batchBuffer batchTimer send timers now fanout app
         set_batchBuffer set_broadcast].
    rewrite Hj1, decide_True by lia. cbv beta iota zeta.
    rewrite alter_snoc. cbn [Stop status deadline].
    unfold set_broadcast.
    cbn [clients broadcast batchBuffer batchTimer send timers now fanout].
    do 5 add_below.
    rewrite <- Ht1. reflexivity. }
  cbn [clients broadcast batchBuffer batchTimer send timers now fanout buf].
  split; [done|]. split; [done|]. split; [done|].
  assert (∀ x, ((tm ++ [mkTimer (nw + batchWindow) Stopped]) ++ [x]) !! t1
               = Some x) as Hlook
    by (intros x; rewrite Ht1; apply lookup_snoc).
  assert (∀ x y, <[t1 := y]> ((tm ++ [mkTimer (nw + batchWindow) Stopped]) ++ [x])
                 = (tm ++ [mkTimer (nw + batchWindow) Stopped]) ++ [y]) as Hins
    by (intros x y; rewrite Ht1; apply insert_snoc).
  split; [apply Hlook|]. split.
  { unfold exec. rewrite bind_get; cbv beta iota.
    unfold timer_expire. rewrite bind_get; cbv beta.
    state_norm. rewrite Hlook. cbn [status deadline].
    rewrite decide_False by (unfold batchWindow, Millisecond; lia). done. }
  rewrite !run_cons. unfold run.
  unfold bind at 1, exec at 1. rewrite bind_get; cbv beta iota.
  rewrite decide_True by done. unfold modify at 1. state_norm.
  unfold bind at 1, exec at 1. rewrite bind_get; cbv beta iota.
  unfold timer_expire. rewrite bind_get; cbv beta.
  state_norm. rewrite Hlook. cbn [status deadline].
  rewrite decide_True by lia. unfold modify at 1. state_norm.
  rewrite Hins.
  unfold bind at 1, exec at 1. rewrite bind_get; cbv beta iota.
  unfold timer_func. rewrite bind_get; cbv beta. state_norm.
  rewrite Hlook. cbn [status deadline].
  unfold bind at 1, modify at 1. state_norm.
  unfold batchTimer_func. rewrite bind_get; cbv beta. state_norm.
  erewrite flushBatch_cons by (simpl; done).
  state_norm. cbn [buf cap].
  rewrite Hj2, decide_True by (unfold len in *; simpl; rewrite length_app; simpl; lia).
  cbv beta iota zeta. unfold ret. state_norm. cbn [app buf].
  rewrite <- app_assoc. done.
Qed.

(** *** The upgrader: main theorem *)

(** C9. The origin check accepts exactly the requests whose Origin header
    is absent (empty) or equal to an entry of the allow-list, so it
    rejects every request whose origin is non-empty and not on the list;
    and a request that is not accepted gets no connection: [ServeWS]
    returns with the hub unchanged and nothing registered. *)
Theorem CheckOrigin_allow_list (r : Request) (s : State) :
  ((CheckOrigin r).1 = true ↔
     Header_Get r "Origin" = "" ∨ Header_Get r "Origin" ∈ allowedOrigins) ∧
  ((CheckOrigin r).1 = false ↔
     Header_Get r "Origin" ≠ "" ∧ Header_Get r "Origin" ∉ allowedOrigins) ∧
  ((CheckOrigin r).1 = true ∨
     ∃ es, ServeWS r s = Ok (tt, s, es) ∧ registered es = ∅).
Proof.
  pose proof (CheckOrigin_true r) as Ht.
  split; [done|]. split.
  - destruct ((CheckOrigin r).1).
    + split; [done|]. intros [Hne Hnin]. destruct Ht as [Ht _].
      destruct (Ht eq_refl); done.
    + split; [|done]. intros _. destruct Ht as [_ Ht].
      split; intros H; by specialize (Ht ltac:(auto)).
  - destruct (CheckOrigin r) as [ok logs] eqn:Hco. destruct ok; [by left|].
    right. unfold ServeWS, Upgrade. rewrite Hco.
    destruct (handshake_ok r); eexists; (split; [reflexivity|]);
      apply registry_quiet_registered; simpl.
    + apply registry_quiet_app; [apply registry_quiet_logs | repeat constructor].
    + repeat constructor.
Qed.

(** *** The delivery pass, step by step

    The uninterrupted pass [Run_broadcast] is what the schedule that lets
    [Run] receive a message and then visit every snapshot entry in a row
    produces. *)

Lemma set_fanout_id (s : State) : set_fanout (fanout s) s = s.
Proof. by destruct s. Qed.

Lemma Run_deliver_one_fanout (message : bytes) (c : nat)
    (f : option (bytes * list nat)) (s : State) :
  Run_deliver_one message c (set_fanout f s)
  = with_fanout f (Run_deliver_one message c s).
Proof.
  unfold Run_deliver_one, remove_client, close_send, try_send, close.
  unfold_m. simpl.
  destruct (send s !! c) as [ch|] eqn:Hs; [|done].
  destruct (closed ch) eqn:Hcl; [done|].
  destruct (decide (len ch < cap ch)); simpl; [done|].
  destruct (clients s !! c); simpl; [|done].
  rewrite Hs, Hcl. done.
Qed.

Lemma Run_deliver_fanout (message : bytes) (snapshot : list nat)
    (f : option (bytes * list nat)) (s : State) :
  Run_deliver message snapshot (set_fanout f s)
  = with_fanout f (Run_deliver message snapshot s).
Proof.
  revert s. induction snapshot as [|c rest IH]; intros s; simpl; [done|].
  unfold bind. rewrite Run_deliver_one_fanout.
  destruct (Run_deliver_one message c s) as [[[[] s1] e1]|]; simpl; [|done].
  rewrite IH.
  by destruct (Run_deliver message rest s1) as [[[[] s2] e2]|].
Qed.

Lemma deliver_steps (message : bytes) (snapshot : list nat) (s : State) :
  run (replicate (length snapshot) EvRunDeliver)
      (set_fanout (next_fanout message snapshot) s)
  = with_fanout None (Run_deliver message snapshot s).
Proof.
  revert s. induction snapshot as [|c rest IH]; intros s; [done|].
  cbn [length replicate]. rewrite run_cons. unfold bind at 1, exec at 1.
  rewrite bind_get; cbv beta iota.
  unfold Run_broadcast_next. rewrite bind_get; cbv beta.
  cbn [next_fanout set_fanout fanout].
  unfold bind at 1, modify at 1.
  change (set_fanout (next_fanout message rest) _)
    with (set_fanout (next_fanout message rest) s).
  rewrite Run_deliver_one_fanout. simpl. unfold bind.
  destruct (Run_deliver_one message c s) as [[[[] s1] e1]|]; simpl; [|done].
  rewrite IH.
  by destruct (Run_deliver message rest s1) as [[[[] s2] e2]|].
Qed.

Lemma deliver_steps_idle (n : nat) (s : State) :
  fanout s = None → run (replicate n EvRunDeliver) s = Ok (tt, s, []).
Proof.
  intros Hidle. induction n as [|n IH]; [done|].
  cbn [replicate]. rewrite run_cons. unfold bind at 1, exec at 1.
  rewrite bind_get; cbv beta iota. unfold Run_broadcast_next.
  rewrite bind_get; cbv beta. rewrite Hidle. unfold ret at 1. by rewrite IH.
Qed.

Lemma Run_broadcast_steps (snapshot : list nat) (s : State) :
  fanout s = None → is_snapshot snapshot s →
  run (EvRunBroadcast snapshot :: replicate (length snapshot) EvRunDeliver) s
  = Run_broadcast snapshot s.
Proof.
  intros Hidle Hsnap. rewrite run_cons. unfold bind at 1, exec at 1.
  rewrite bind_get; cbv beta iota.
  unfold idle. rewrite Hidle, bool_decide_eq_true_2 by done. cbn [andb].
  unfold Run_broadcast_begin, Run_broadcast. rewrite !bind_get; cbv beta.
  destruct (buf (broadcast s)) as [|message queued].
  - unfold ret. by rewrite deliver_steps_idle.
  - unfold bind, modify. rewrite deliver_steps.
    set (s0 := set_broadcast _ s).
    assert (fanout s0 = None) as Hidle0 by done.
    pose proof (Run_deliver_fanout message snapshot (fanout s0) s0) as Hfan.
    rewrite set_fanout_id in Hfan.
    destruct (Run_deliver message snapshot s0) as [[[[] s1] e1]|]; [|done].
    simpl in *. rewrite Hidle0 in Hfan. by rewrite <- Hfan.
Qed.

(** *** Every path of an event

    The invariants of this part are checked on every path through the
    code of an event, with the state each path ends in spelled out. *)

Ltac unfold_exec :=
  unfold exec, ServeWS, readPump_exit, Run_register, Run_unregister,
    Run_broadcast_begin, Run_broadcast_next, Run_deliver_one, remove_client,
    close_send, writePump_recv, BroadcastMessage, BroadcastMessageBatched,
    timer_expire, timer_func, batchTimer_func, Shutdown, flushBatch,
    stop_batchTimer, submit, try_send, close in *.

Ltac exec_cases H :=
  unfold_exec; unfold_m; simpl in H;
  repeat (case_match; simpl in *; simplify_eq).

Lemma chan_bounded_lookup (l : list Chan) (c : nat) (ch : Chan) :
  Forall chan_bounded l → l !! c = Some ch → chan_bounded ch.
Proof. intros Hall Hl. by eapply Forall_lookup_1. Qed.

Lemma exec_bounded (ev : Event payload) (s s' : State) (es : list Effect) :
  queues_bounded s → exec ev s = Ok (tt, s', es) → queues_bounded s'.
Proof.
  intros [Hb Hs] Hrun. destruct s as [cl br bb bt sd tm nw fo]. simpl in Hb, Hs.
  destruct ev; exec_cases Hrun.
  all: try (split; simpl; assumption).
  all: split; simpl; try assumption.
  all: try match goal with
       | H : ?l !! _ = Some ?ch |- _ =>
           pose proof (chan_bounded_lookup _ _ _ Hs H) as [? ?]
       end.
  all: try (apply Forall_insert; [assumption|]).
  all: try (apply Forall_app; split; [assumption | repeat constructor]).
  all: unfold chan_bounded, len in *; simpl in *; rewrite ?length_app; simpl.
  all: try (destruct Hb; split; lia).
  all: try lia.
  all: try match goal with
       | H : buf ?br = _ :: _ |- _ =>
           destruct Hb as [Hb1 Hb2]; rewrite H in Hb1; simpl in Hb1; split; lia
       end.
Qed.

Ltac len_facts :=
  repeat match goal with
  | H : _ ++ [_] = _ :: _ |- _ =>
      apply (f_equal length) in H; rewrite length_app in H; simpl in H
  end.

(** *** The batch buffer and its timer *)

Lemma flushes_app (es1 es2 : list Effect) :
  flushes (es1 ++ es2) = flushes es1 ++ flushes es2.
Proof. unfold flushes. apply omap_app. Qed.

Lemma flushes_logs (logs : list LogLine) : flushes (Log <$> logs : list Effect) = [].
Proof. by induction logs. Qed.

Lemma exec_batch (ev : Event payload) (s s' : State) (es : list Effect) :
  batch_inv s → exec ev s = Ok (tt, s', es) →
  batch_inv s' ∧
  concat (flushes es) ++ batchBuffer s' = batchBuffer s ++ added_by ev ∧
  Forall batch_sized (flushes es).
Proof.
  intros [Hlt Hiff Hlive] Hrun. destruct s as [cl br bb bt sd tm nw fo].
  simpl in Hlt, Hiff, Hlive.
  destruct ev; exec_cases Hrun; state_norm.
  all: rewrite ?flushes_app, ?flushes_logs; simpl; rewrite ?app_nil_r.
  all: try (split; [by split|]; split; [done | constructor]).
  all: split; [split; simpl | split; [try done|]].
  all: try (unfold batch_sized, maxBatchSize in *; len_facts; simpl in *; lia).
  all: try done.
  all: try (constructor; [|constructor];
            unfold batch_sized, maxBatchSize in *; len_facts; simpl; lia).
  all: try (split; [by destruct bb | done]).
  all: try (destruct Hiff as [Hc _]; by specialize (Hc eq_refl)).
  all: try (destruct bb; simpl in *; [done | lia]).
  1:{ intros t [= <-]. eexists. split; [apply lookup_snoc | by left]. }
  1:{ intros t1 Hbt. destruct (Hlive t1 Hbt) as (tm0 & Hl & Hlv).
      destruct (decide (t1 = t)) as [->|Hne].
      - eexists. split; [apply list_lookup_insert_eq; by eapply lookup_lt_Some | by right].
      - exists tm0. by rewrite list_lookup_insert_ne. }
  all: unfold set_clients, set_broadcast, set_batchBuffer, set_batchTimer,
         set_send, set_timers, set_now, set_fanout in *;
       cbn [clients broadcast batchBuffer batchTimer send timers now fanout] in *;
       simplify_eq.
  all: constructor; [|constructor];
       unfold batch_sized, maxBatchSize in *; simpl in *; lia.
Qed.

Lemma run_cons_Ok (ev : Event payload) (rest : list (Event payload))
    (s s' : State) (es : list Effect) :
  run (ev :: rest) s = Ok (tt, s', es) →
  ∃ s1 e1 e2, exec ev s = Ok (tt, s1, e1) ∧ run rest s1 = Ok (tt, s', e2) ∧
              es = e1 ++ e2.
Proof.
  rewrite run_cons. unfold bind. intros Hrun.
  destruct (exec ev s) as [[[[] s1] e1]|]; [|done].
  destruct (run rest s1) as [[[[] s2] e2]|] eqn:Hrest; [|done].
  simplify_eq. by exists s1, e1, e2.
Qed.

Lemma run_batch (schedule : list (Event payload)) (s s' : State) (es : list Effect) :
  batch_inv s → run schedule s = Ok (tt, s', es) →
  batch_inv s' ∧
  concat (flushes es) ++ batchBuffer s' = batchBuffer s ++ added schedule ∧
  Forall batch_sized (flushes es).
Proof.
  revert s es. induction schedule as [|ev rest IH]; intros s es Hinv Hrun.
  - simpl in Hrun. unfold ret in Hrun. simplify_eq.
    split; [done|]. split; [|constructor].
    unfold added. simpl. by rewrite app_nil_r.
  - apply run_cons_Ok in Hrun as (s1 & e1 & e2 & Hrun1 & Hrun2 & ->).
    destruct (exec_batch ev s s1 e1 Hinv Hrun1) as (Hinv1 & Hcons1 & Hsz1).
    destruct (IH s1 e2 Hinv1 Hrun2) as (Hinv2 & Hcons2 & Hsz2).
    split; [done|]. split; [|rewrite flushes_app; by apply Forall_app].
    rewrite flushes_app, concat_app, <- app_assoc, Hcons2, app_assoc, Hcons1.
    unfold added. simpl. by rewrite <- app_assoc.
Qed.

Lemma NewHub_batch_inv : batch_inv NewHub.
Proof. split; simpl; [unfold maxBatchSize; lia | done | done]. Qed.

(** X1. Whatever the producers, the timers and [Shutdown] do, in whatever
    order: between two critical sections of [batchMutex] the batch
    buffer holds fewer than [maxBatchSize] messages, it is empty
    exactly when [batchTimer] is nil, and a non-nil [batchTimer] points
    to a timer that is armed or has fired, never to a stopped or
    finished one. *)
Theorem batch_accumulator_invariant (schedule : list (Event payload)) :
  ∃ s es,
    run schedule NewHub = Ok (tt, s, es) ∧
    length (batchBuffer s) < maxBatchSize ∧
    (batchBuffer s = [] ↔ batchTimer s = None) ∧
    ∀ t, batchTimer s = Some t →
      ∃ tm, timers s !! t = Some tm ∧ (status tm = Armed ∨ status tm = Fired).
Proof.
  destruct (run_step schedule NewHub NewHub_inv) as (s & es & Hrun & _).
  exists s, es. split; [done|].
  by destruct (run_batch schedule NewHub s es NewHub_batch_inv Hrun) as ([] & _).
Qed.

(** X2. Batching neither loses, duplicates nor reorders: after any
    schedule, the batches flushed so far, one after the other, followed
    by the messages still pending are exactly the messages handed to
    [BroadcastMessageBatched], in call order. *)
Theorem batching_keeps_every_message (schedule : list (Event payload)) :
  ∃ s es,
    run schedule NewHub = Ok (tt, s, es) ∧
    concat (flushes es) ++ batchBuffer s = added schedule.
Proof.
  destruct (run_step schedule NewHub NewHub_inv) as (s & es & Hrun & _).
  exists s, es. split; [done|].
  by destruct (run_batch schedule NewHub s es NewHub_batch_inv Hrun) as (_ & ? & _).
Qed.

(** X3. Every batch [flushBatch] takes holds at least one and at most
    [maxBatchSize] messages, whoever triggered the flush. *)
Theorem flushed_batches_are_bounded (schedule : list (Event payload)) :
  ∃ s es,
    run schedule NewHub = Ok (tt, s, es) ∧
    ∀ b, b ∈ flushes es → 0 < length b ≤ maxBatchSize.
Proof.
  destruct (run_step schedule NewHub NewHub_inv) as (s & es & Hrun & _).
  exists s, es. split; [done|].
  destruct (run_batch schedule NewHub s es NewHub_batch_inv Hrun) as (_ & _ & Hsz).
  intros b Hb. by apply (proj1 (Forall_forall _ _) Hsz).
Qed.

(** *** Order of delivery *)

Lemma submitted_app (es1 es2 : list Effect) :
  submitted (es1 ++ es2) = submitted es1 ++ submitted es2.
Proof. unfold submitted. apply omap_app. Qed.

Lemma enqueued_app (c : nat) (es1 es2 : list Effect) :
  enqueued c (es1 ++ es2) = enqueued c es1 ++ enqueued c es2.
Proof. unfold enqueued. apply omap_app. Qed.

Lemma submitted_logs (logs : list LogLine) :
  submitted (Log <$> logs : list Effect) = [].
Proof. by induction logs. Qed.

Lemma enqueued_logs (c : nat) (logs : list LogLine) :
  enqueued c (Log <$> logs : list Effect) = [].
Proof. by induction logs. Qed.

Lemma fifo_inv_quiet (s s' : State) (es0 es : list Effect) (consumed : list bytes) :
  fifo_inv s es0 consumed →
  buf (broadcast s') = buf (broadcast s) → fanout s' = fanout s →
  submitted es = [] → (∀ c, enqueued c es = []) →
  fifo_inv s' (es0 ++ es) consumed.
Proof.
  intros [Hsub Henq Hfan] Hb Hf Hs He. split.
  - by rewrite submitted_app, Hs, app_nil_r, Hb.
  - intros c. by rewrite enqueued_app, He, app_nil_r.
  - intros m rest Hfo. rewrite Hf in Hfo.
    destruct (Hfan m rest Hfo) as (Hnd & pre & Hpre & Hall).
    split; [done|]. exists pre. split; [done|].
    intros c Hc. rewrite enqueued_app, He, app_nil_r. by apply Hall.
Qed.

Lemma fifo_inv_next (s s' : State) (es0 es : list Effect) (consumed : list bytes)
    (message : bytes) (c : nat) (rest : list nat) :
  fifo_inv s es0 consumed →
  fanout s = Some (message, c :: rest) →
  buf (broadcast s') = buf (broadcast s) →
  fanout s' = next_fanout message rest →
  submitted es = [] →
  (∀ c', c' ≠ c → enqueued c' es = []) →
  (enqueued c es = [] ∨ enqueued c es = [message]) →
  fifo_inv s' (es0 ++ es) consumed.
Proof.
  intros [Hsub Henq Hfan] Hfo Hb Hf Hs Hother Hc.
  destruct (Hfan _ _ Hfo) as (Hnd & pre & Hpre & Hall).
  apply NoDup_cons in Hnd as [Hnotin Hnd].
  split.
  - by rewrite submitted_app, Hs, app_nil_r, Hb.
  - intros c'. rewrite enqueued_app.
    destruct (decide (c' = c)) as [->|Hne].
    + destruct Hc as [-> | ->].
      * rewrite app_nil_r. apply Henq.
      * rewrite Hpre. apply sublist_app; [|done]. apply Hall. left.
    + rewrite Hother by done. rewrite app_nil_r. apply Henq.
  - intros m rest' Hfo'. rewrite Hf in Hfo'.
    destruct rest as [|c1 rest1]; [done|]. simpl in Hfo'. simplify_eq.
    split; [done|]. exists pre. split; [done|].
    intros c' Hc'. rewrite enqueued_app, Hother, app_nil_r.
    + apply Hall. by right.
    + intros ->. done.
Qed.

Lemma fifo_inv_submit (s s' : State) (es0 es : list Effect) (consumed : list bytes)
    (jsonData : bytes) :
  fifo_inv s es0 consumed →
  buf (broadcast s') = buf (broadcast s) ++ [jsonData] → fanout s' = fanout s →
  submitted es = [jsonData] → (∀ c, enqueued c es = []) →
  fifo_inv s' (es0 ++ es) consumed.
Proof.
  intros [Hsub Henq Hfan] Hb Hf Hs He. split.
  - by rewrite submitted_app, Hs, Hb, Hsub, app_assoc.
  - intros c. by rewrite enqueued_app, He, app_nil_r.
  - intros m rest Hfo. rewrite Hf in Hfo.
    destruct (Hfan m rest Hfo) as (Hnd & pre & Hpre & Hall).
    split; [done|]. exists pre. split; [done|].
    intros c Hc. rewrite enqueued_app, He, app_nil_r. by apply Hall.
Qed.

Lemma fifo_inv_begin (s s' : State) (es0 : list Effect) (consumed : list bytes)
    (message : bytes) (queued : list bytes) (snapshot : list nat) :
  fifo_inv s es0 consumed →
  buf (broadcast s) = message :: queued → buf (broadcast s') = queued →
  NoDup snapshot → fanout s' = next_fanout message snapshot →
  fifo_inv s' (es0 ++ []) (consumed ++ [message]).
Proof.
  intros [Hsub Henq Hfan] Hb Hb' Hnd Hf. rewrite app_nil_r. split.
  - by rewrite Hsub, Hb, Hb', <- app_assoc.
  - intros c. by apply sublist_inserts_r.
  - intros m rest Hfo. rewrite Hf in Hfo.
    destruct snapshot as [|c0 rest0]; [done|]. simpl in Hfo. simplify_eq.
    split; [done|]. by exists consumed.
Qed.

Lemma enqueued_Enqueue (c c' : nat) (message : bytes) :
  enqueued c' [Enqueue c message : Effect] = if decide (c = c') then [message] else [].
Proof. unfold enqueued. simpl. by destruct (decide (c = c')). Qed.

Lemma exec_fifo (ev : Event payload) (s s' : State) (es0 es : list Effect)
    (consumed : list bytes) :
  fifo_inv s es0 consumed → exec ev s = Ok (tt, s', es) →
  ∃ consumed', fifo_inv s' (es0 ++ es) consumed'.
Proof.
  intros Hinv Hrun. destruct s as [cl br bb bt sd tm nw fo].
  destruct ev; exec_cases Hrun; state_norm.
  all: try (exists consumed; eapply fifo_inv_quiet; [exact Hinv | done | done | |];
            [ rewrite ?submitted_app, ?submitted_logs; reflexivity
            | intros ?; rewrite ?enqueued_app, ?enqueued_logs; reflexivity ]).
  all: try (exists consumed; eapply fifo_inv_submit; [exact Hinv | done | done | |];
            [ reflexivity | intros ?; reflexivity ]).
  all: try (exists consumed; eapply fifo_inv_next;
            [ exact Hinv | reflexivity | done | reflexivity | reflexivity
            | intros c' Hne; rewrite ?enqueued_Enqueue; try reflexivity;
              by rewrite decide_False
            | first [ by left
                    | right; rewrite enqueued_Enqueue; by rewrite decide_True ] ]).
  apply andb_true_iff in H0 as [_ Hsnap].
  apply bool_decide_eq_true_1 in Hsnap. destruct Hsnap as [Hnd _].
  exists (consumed ++ [b]).
  by eapply fifo_inv_begin; [exact Hinv | exact H | | |].
Qed.

Lemma run_fifo (schedule : list (Event payload)) (s s' : State)
    (es0 es : list Effect) (consumed : list bytes) :
  fifo_inv s es0 consumed → run schedule s = Ok (tt, s', es) →
  ∃ consumed', fifo_inv s' (es0 ++ es) consumed'.
Proof.
  revert s es0 es consumed.
  induction schedule as [|ev rest IH]; intros s es0 es consumed Hinv Hrun.
  - simpl in Hrun. unfold ret in Hrun. simplify_eq.
    exists consumed. by rewrite app_nil_r.
  - apply run_cons_Ok in Hrun as (s1 & e1 & e2 & Hrun1 & Hrun2 & ->).
    destruct (exec_fifo ev s s1 es0 e1 consumed Hinv Hrun1) as [consumed1 Hinv1].
    destruct (IH s1 (es0 ++ e1) e2 consumed1 Hinv1 Hrun2) as [consumed2 Hinv2].
    exists consumed2. by rewrite app_assoc.
Qed.

Lemma NewHub_fifo_inv : fifo_inv NewHub [] [].
Proof. split; simpl; [done | intros c; constructor | done]. Qed.

(** X4. Fan-out keeps the order of submission: what [Run] puts on the
    [send] queue of a client is, in order, a subsequence of what was put
    on [h.broadcast]; no message reaches a client twice or out of
    order. *)
Theorem connection_receives_in_submission_order
    (schedule : list (Event payload)) (c : nat) :
  ∃ s es,
    run schedule NewHub = Ok (tt, s, es) ∧
    enqueued c es `sublist_of` submitted es.
Proof.
  destruct (run_step schedule NewHub NewHub_inv) as (s & es & Hrun & _).
  exists s, es. split; [done|].
  destruct (run_fifo schedule NewHub s [] es [] NewHub_fifo_inv Hrun)
    as [consumed [Hsub Henq _]].
  simpl in Hsub. rewrite Hsub. by apply sublist_inserts_r.
Qed.

(** *** Accounting for submissions *)

Lemma outcomes_app (es1 es2 : list Effect) :
  outcomes (es1 ++ es2) = outcomes es1 + outcomes es2.
Proof.
  unfold outcomes, dropped, marshal_errors.
  rewrite submitted_app, !filter_app, !length_app. lia.
Qed.

Lemma Upgrade_logs (r : Request) :
  outcomes (Log <$> (Upgrade r).2 : list Effect) = 0.
Proof.
  unfold Upgrade, CheckOrigin.
  destruct (handshake_ok r); [|done].
  destruct (decide (Header_Get r "Origin" = "")); [done|].
  by destruct (origin_in (Header_Get r "Origin") allowedOrigins).
Qed.

Lemma exec_outcomes (ev : Event payload) (s s' : State) (es : list Effect) :
  exec ev s = Ok (tt, s', es) →
  outcomes es = (if is_BroadcastMessage ev then 1 else 0) + length (flushes es).
Proof.
  intros Hrun. destruct s as [cl br bb bt sd tm nw fo].
  destruct ev; exec_cases Hrun; state_norm.
  all: try reflexivity.
  all: rewrite ?outcomes_app, ?flushes_app, ?flushes_logs.
  all: try match goal with
       | H : Upgrade ?r = (_, ?l) |- _ =>
           pose proof (Upgrade_logs r) as Hlogs; rewrite H in Hlogs;
           simpl in Hlogs; rewrite Hlogs
       end.
  all: reflexivity.
Qed.

Lemma run_outcomes (schedule : list (Event payload)) (s s' : State) (es : list Effect) :
  run schedule s = Ok (tt, s', es) →
  outcomes es = broadcast_calls schedule + length (flushes es).
Proof.
  revert s es. induction schedule as [|ev rest IH]; intros s es Hrun.
  - simpl in Hrun. unfold ret in Hrun. by simplify_eq.
  - apply run_cons_Ok in Hrun as (s1 & e1 & e2 & Hrun1 & Hrun2 & ->).
    rewrite outcomes_app, flushes_app, length_app.
    rewrite (exec_outcomes _ _ _ _ Hrun1), (IH _ _ Hrun2).
    unfold broadcast_calls. rewrite filter_cons.
    destruct (is_BroadcastMessage ev); simpl; lia.
Qed.

(** X5. Nothing is lost without a trace: every call of
    [BroadcastMessage] and every batch taken by [flushBatch] ends in
    exactly one of three ways, accepted by [h.broadcast], dropped with
    a log line because the channel is full, or refused by
    [json.Marshal] with a log line; nothing else is ever put on
    [h.broadcast]. *)
Theorem no_submission_lost_silently (schedule : list (Event payload)) :
  ∃ s es,
    run schedule NewHub = Ok (tt, s, es) ∧
    length (submitted es) + dropped es + marshal_errors es
      = broadcast_calls schedule + length (flushes es).
Proof.
  destruct (run_step schedule NewHub NewHub_inv) as (s & es & Hrun & _).
  exists s, es. split; [done|]. exact (run_outcomes schedule NewHub s es Hrun).
Qed.

(** *** The write pump *)

Lemma frames_app (c : nat) (es1 es2 : list Effect) :
  frames c (es1 ++ es2) = frames c es1 ++ frames c es2.
Proof. unfold frames. apply omap_app. Qed.

Lemma frames_logs (c : nat) (logs : list LogLine) :
  frames c (Log <$> logs : list Effect) = [].
Proof. by induction logs. Qed.

Lemma CloseFrame_logs (c : nat) (logs : list LogLine) :
  (CloseFrame c : Effect) ∉ (Log <$> logs : list Effect).
Proof. intros (l & Hl & _)%list_elem_of_fmap. done. Qed.

Ltac lookup_norm c :=
  repeat match goal with
  | H : ?sd !! ?c0 = Some _ |- context [<[?c0 := ?x]> ?sd !! c] =>
      let Hne := fresh "Hne" in
      destruct (decide (c0 = c)) as [->|Hne];
      [ rewrite (list_lookup_insert_eq sd c x) by (by eapply lookup_lt_Some)
      | rewrite (list_lookup_insert_ne sd c0 c x) by done ]
  end.

Ltac proj_norm :=
  rewrite ?frames_app, ?enqueued_app, ?frames_logs, ?enqueued_logs;
  unfold frames, enqueued; simpl;
  rewrite ?decide_True by done; rewrite ?decide_False by done; simpl.

Lemma exec_queue (ev : Event payload) (s s' : State) (es : list Effect) (c : nat) :
  exec ev s = Ok (tt, s', es) →
  queue_step c (send s !! c) (send s' !! c) es.
Proof.
  intros Hrun. destruct s as [cl br bb bt sd tm nw fo].
  destruct ev; exec_cases Hrun; state_norm.
  all: lookup_norm c.
  all: try (apply queue_untouched; proj_norm; [done | done | set_solver]).
  all: try match goal with
       | H : ?sd !! ?c = Some _ |- queue_step ?c (?sd !! ?c) _ _ => rewrite H
       end.
  all: try (apply queue_closed; proj_norm; [done | done | done | set_solver]).
  all: try (apply queue_enqueued; proj_norm; [done | done | done | done | set_solver]).
  all: try (eapply queue_drained; proj_norm; [done | done | done | set_solver]).
  - destruct (decide (c < length sd)) as [Hlt|Hge].
    + rewrite lookup_app_l by done.
      apply queue_untouched; proj_norm; [done | done |].
      pose proof (CloseFrame_logs c l). set_solver.
    + destruct (decide (c = length sd)) as [->|Hne].
      * rewrite lookup_snoc, lookup_ge_None_2 by lia.
        apply queue_made; proj_norm; [done | done |].
        pose proof (CloseFrame_logs (length sd) l). set_solver.
      * rewrite !lookup_ge_None_2 by (rewrite ?length_app; simpl; lia).
        apply queue_untouched; proj_norm; [done | done |].
        pose proof (CloseFrame_logs c l). set_solver.
  - destruct (decide (c0 = c)) as [->|Hne].
    + rewrite H. by apply queue_close_frame.
    + apply queue_untouched; proj_norm; [done | done | set_solver].
Qed.

Lemma pump_inv_intro (c : nat) (s : State) (es : list Effect)
    (groups : list (bytes * list bytes)) (o : option Chan) :
  send s !! c = o →
  frames c es = map (λ g, frame_of g.1 g.2) groups →
  concat (map frame_messages groups) ++ from_option buf [] o = enqueued c es →
  (CloseFrame c ∈ es → from_option closed false o = true ∧ from_option buf [] o = []) →
  pump_inv c s es groups.
Proof.
  intros <- Hf Hm Hc. split; [done|..]; unfold queue, was_closed in *;
    by destruct (send s !! c).
Qed.

Lemma pump_inv_elim (c : nat) (s : State) (es : list Effect)
    (groups : list (bytes * list bytes)) (o : option Chan) :
  send s !! c = o → pump_inv c s es groups →
  frames c es = map (λ g, frame_of g.1 g.2) groups ∧
  concat (map frame_messages groups) ++ from_option buf [] o = enqueued c es ∧
  (CloseFrame c ∈ es → from_option closed false o = true ∧ from_option buf [] o = []).
Proof.
  intros <- [Hf Hm Hc]. unfold queue, was_closed in *.
  by destruct (send s !! c).
Qed.

Lemma queue_step_pump (c : nat) (s s' : State) (es0 es : list Effect)
    (groups : list (bytes * list bytes)) :
  pump_inv c s es0 groups →
  queue_step c (send s !! c) (send s' !! c) es →
  (∃ groups', pump_inv c s' (es0 ++ es) groups') ∧
  (CloseFrame c ∈ es0 → frames c es = [] ∧ enqueued c es = []).
Proof.
  intros Hinv Hstep.
  remember (send s !! c) as o eqn:Ho. remember (send s' !! c) as o' eqn:Ho'.
  symmetry in Ho, Ho'.
  destruct (pump_inv_elim c s es0 groups o Ho Hinv) as (Hfr & Hmsg & Hcl).
  clear Hinv.
  destruct Hstep as [o es Hf He Hc|es Hf He Hc|ch es Hopen Hf He Hc
                    |ch m es Hopen Hroom Hf He Hc|ch m q es Hbuf Hf He Hc
                    |ch Hbuf Hclosed]; simpl in *.
  - split; [|done]. exists groups. eapply pump_inv_intro; [done|..].
    + by rewrite frames_app, Hf, app_nil_r.
    + by rewrite enqueued_app, He, app_nil_r.
    + intros [Hin|Hin]%elem_of_app; [by apply Hcl | done].
  - split; [|done]. exists groups. eapply pump_inv_intro; [done|..].
    + by rewrite frames_app, Hf, app_nil_r.
    + rewrite enqueued_app, He, <- Hmsg. simpl. by rewrite !app_nil_r.
    + intros [Hin|Hin]%elem_of_app; [|done]. by destruct (Hcl Hin).
  - split; [|done]. exists groups. eapply pump_inv_intro; [done|..].
    + by rewrite frames_app, Hf, app_nil_r.
    + by rewrite enqueued_app, He, app_nil_r.
    + intros [Hin|Hin]%elem_of_app; [|done]. destruct (Hcl Hin). congruence.
  - split.
    + exists groups. eapply pump_inv_intro; [done|..].
      * by rewrite frames_app, Hf, app_nil_r.
      * rewrite enqueued_app, He. simpl. by rewrite app_assoc, Hmsg.
      * intros [Hin|Hin]%elem_of_app; [|done]. destruct (Hcl Hin). congruence.
    + intros Hin. destruct (Hcl Hin). congruence.
  - split.
    + exists (groups ++ [(m, q)]). eapply pump_inv_intro; [done|..].
      * by rewrite frames_app, Hf, Hfr, map_app.
      * rewrite enqueued_app, He, app_nil_r. simpl.
        rewrite map_app, concat_app. simpl.
        rewrite <- Hmsg, Hbuf. unfold frame_messages. simpl. by rewrite !app_nil_r.
      * intros [Hin|Hin]%elem_of_app; [|done].
        destruct (Hcl Hin) as [_ Hq]. congruence.
    + intros Hin. destruct (Hcl Hin) as [_ Hq]. congruence.
  - split; [|done]. exists groups. eapply pump_inv_intro; [done|..].
    + by rewrite frames_app, app_nil_r.
    + by rewrite enqueued_app, app_nil_r.
    + done.
Qed.

Lemma run_pump (schedule : list (Event payload)) (c : nat) (s s' : State)
    (es0 es : list Effect) (groups : list (bytes * list bytes)) :
  pump_inv c s es0 groups → run schedule s = Ok (tt, s', es) →
  (∃ groups', pump_inv c s' (es0 ++ es) groups') ∧
  (CloseFrame c ∈ es0 → frames c es = [] ∧ enqueued c es = []).
Proof.
  revert s es0 es groups.
  induction schedule as [|ev rest IH]; intros s es0 es groups Hinv Hrun.
  - simpl in Hrun. unfold ret in Hrun. simplify_eq. split; [|done].
    exists groups. by rewrite app_nil_r.
  - apply run_cons_Ok in Hrun as (s1 & e1 & e2 & Hrun1 & Hrun2 & ->).
    destruct (queue_step_pump c s s1 es0 e1 groups Hinv (exec_queue _ _ _ _ c Hrun1))
      as [[groups1 Hinv1] Hafter1].
    destruct (IH s1 (es0 ++ e1) e2 groups1 Hinv1 Hrun2) as [[groups2 Hinv2] Hafter2].
    split.
    + exists groups2. by rewrite app_assoc.
    + intros Hin. destruct (Hafter1 Hin) as [Hf1 He1].
      destruct Hafter2 as [Hf2 He2]; [apply elem_of_app; by left|].
      by rewrite frames_app, enqueued_app, Hf1, He1, Hf2, He2.
Qed.

Lemma NewHub_pump_inv (c : nat) : pump_inv c NewHub [] [].
Proof. split; [done | done | by intros ?%elem_of_nil]. Qed.

(** X6. [writePump] writes what [Run] queued, in order: as long as the
    connection takes the writes, the text frames written to a client
    are consecutive groups of the messages enqueued for it, each group
    one frame, and the messages enqueued are those written followed by
    those still on the queue. *)
Theorem writePump_writes_queue_in_order (schedule : list (Event payload)) (c : nat) :
  ∃ s es groups,
    run schedule NewHub = Ok (tt, s, es) ∧
    frames c es = map (λ g, frame_of g.1 g.2) groups ∧
    concat (map frame_messages groups) ++ queue s c = enqueued c es.
Proof.
  destruct (run_step schedule NewHub NewHub_inv) as (s & es & Hrun & _).
  destruct (run_pump schedule c NewHub s [] es [] (NewHub_pump_inv c) Hrun)
    as [[groups [Hf Hm _]] _].
  by exists s, es, groups.
Qed.

(** X7. The close frame ends a connection's output: when [writePump]
    writes it, the [send] queue is closed and every message ever
    enqueued for the client has been written in a frame, and however the
    hub is driven afterwards no text frame is written to that client and
    nothing is enqueued for it. *)
Theorem close_frame_is_last (before after : list (Event payload)) (c : nat) :
  ∃ s1 es1 s2 es2,
    run before NewHub = Ok (tt, s1, es1) ∧
    run after s1 = Ok (tt, s2, es2) ∧
    (CloseFrame c ∈ es1 →
       was_closed s1 c = true ∧
       (∃ groups, frames c es1 = map (λ g, frame_of g.1 g.2) groups ∧
                  concat (map frame_messages groups) = enqueued c es1) ∧
       frames c es2 = [] ∧ enqueued c es2 = []).
Proof.
  destruct (run_step before NewHub NewHub_inv) as (s1 & es1 & Hrun1 & Hst1).
  destruct (run_step after s1 (step_inv _ _ _ Hst1)) as (s2 & es2 & Hrun2 & _).
  exists s1, es1, s2, es2. split; [done|]. split; [done|]. intros Hin.
  destruct (run_pump before c NewHub s1 [] es1 [] (NewHub_pump_inv c) Hrun1)
    as [[groups1 Hinv1] _].
  destruct (pump_closed _ _ _ _ Hinv1 Hin) as [Hcl Hq].
  destruct (run_pump after c s1 s2 es1 es2 groups1 Hinv1 Hrun2) as [_ Hafter].
  destruct (Hafter Hin) as [Hf He].
  split; [done|]. split; [|done].
  exists groups1. split; [apply Hinv1|].
  pose proof (pump_messages _ _ _ _ Hinv1) as Hm.
  by rewrite Hq, app_nil_r in Hm.
Qed.

Lemma append_assoc (a b c : string) : (a +:+ b) +:+ c = a +:+ (b +:+ c).
Proof.
  induction a as [|x a IH]; [done|].
  change (String x ((a +:+ b) +:+ c) = String x (a +:+ b +:+ c)). by rewrite IH.
Qed.

Lemma frame_of_app (message : bytes) (queued : list bytes) (prefix : bytes) :
  frame_of (prefix +:+ message) queued = prefix +:+ frame_of message queued.
Proof.
  revert message. induction queued as [|m rest IH]; intros message; [done|].
  simpl. rewrite <- IH. f_equal. by rewrite append_assoc.
Qed.

Lemma frame_of_concat (message : bytes) (queued : list bytes) :
  frame_of message queued = String.concat newline (message :: queued).
Proof.
  revert message. induction queued as [|m rest IH]; intros message; [done|].
  change (String.concat newline (message :: m :: rest))
    with (message +:+ newline +:+ String.concat newline (m :: rest)).
  cbn [frame_of]. by rewrite !frame_of_app, IH.
Qed.

(** X8. The frame [writePump] writes is the message received and the
    messages queued behind it, joined by single newlines. *)
Theorem frame_of_joins_with_newlines (message : bytes) (queued : list bytes) :
  frame_of message queued = String.concat newline (message :: queued).
Proof. apply frame_of_concat. Qed.

(** *** Queue capacity and eviction *)

Lemma run_bounded (schedule : list (Event payload)) (s s' : State) (es : list Effect) :
  queues_bounded s → run schedule s = Ok (tt, s', es) → queues_bounded s'.
Proof.
  revert s es. induction schedule as [|ev rest IH]; intros s es Hb Hrun.
  - simpl in Hrun. unfold ret in Hrun. by simplify_eq.
  - apply run_cons_Ok in Hrun as (s1 & e1 & e2 & Hrun1 & Hrun2 & ->).
    eapply IH; [|done]. by eapply exec_bounded.
Qed.

Lemma NewHub_bounded : queues_bounded NewHub.
Proof. split; [split; [cbv; lia | done] | constructor]. Qed.

(** X9. No queue grows beyond the 256 slots it is made with: neither
    [h.broadcast] nor the [send] queue of any client, in any reachable
    state. *)
Theorem queues_stay_within_capacity (schedule : list (Event payload)) :
  ∃ s es,
    run schedule NewHub = Ok (tt, s, es) ∧
    len (broadcast s) ≤ 256 ∧
    ∀ c ch, send s !! c = Some ch → len ch ≤ 256.
Proof.
  destruct (run_step schedule NewHub NewHub_inv) as (s & es & Hrun & _).
  exists s, es. split; [done|].
  destruct (run_bounded schedule NewHub s es NewHub_bounded Hrun) as [[Hb Hcap] Hall].
  split; [lia|]. intros c ch Hs.
  destruct (chan_bounded_lookup _ _ _ Hall Hs). lia.
Qed.

(** X10. The delivery loop evicts a client only when its queue is at
    capacity: if an iteration closes the queue of a client, 256 messages
    were waiting on it and the message at hand is not enqueued. *)
Theorem eviction_only_at_capacity (schedule : list (Event payload)) (c : nat) :
  ∃ s es s' es',
    run schedule NewHub = Ok (tt, s, es) ∧
    exec EvRunDeliver s = Ok (tt, s', es') ∧
    (Close c ∈ es' → length (queue s c) = 256 ∧ enqueued c es' = []).
Proof.
  destruct (run_step schedule NewHub NewHub_inv) as (s & es & Hrun & Hst).
  destruct (exec_step EvRunDeliver s (step_inv _ _ _ Hst)) as (s' & es' & Hexec & _).
  exists s, es, s', es'. split; [done|]. split; [done|]. intros Hin.
  destruct (run_bounded schedule NewHub s es NewHub_bounded Hrun) as [_ Hall].
  clear Hrun Hst. destruct s as [cl br bb bt sd tm nw fo]. unfold queue. simpl in *.
  exec_cases Hexec.
  all: try (by apply elem_of_nil in Hin).
  all: repeat match goal with
       | H : _ ∈ [_] |- _ => apply list_elem_of_singleton in H; simplify_eq
       end.
  all: match goal with
       | H : ?sd !! ?c = Some ?ch, Hall : Forall chan_bounded ?sd |- _ =>
           destruct (chan_bounded_lookup _ _ _ Hall H) as [? ?]
       end.
  all: unfold len in *; split; [lia | done].
Qed.

(** *** Shutdown and the timers *)

Lemma Shutdown_idle (s : State) :
  batchBuffer s = [] → batchTimer s = None → Shutdown s = Ok (tt, s, []).
Proof.
  intros Hb Ht. unfold Shutdown, stop_batchTimer. unfold_m. rewrite Ht, Hb. done.
Qed.

Lemma Shutdown_clears (s : State) :
  closed (broadcast s) = false →
  ∃ s' es, Shutdown s = Ok (tt, s', es) ∧ batchBuffer s' = [] ∧ batchTimer s' = None.
Proof.
  intros Hopen. destruct (Shutdown s) as [[[[] s'] es]|p] eqn:Hrun.
  - exists s', es. split; [done|].
    destruct s as [cl [queued n isclosed] bb bt sd tm nw fo].
    cbn in Hopen. subst isclosed. exec_cases Hrun; state_norm; try done.
    all: unfold set_batchTimer, set_timers in *; simpl in *.
    all: destruct bb; simpl in *; [done | lia].
  - destruct s as [cl [queued n isclosed] bb bt sd tm nw fo].
    cbn in Hopen. subst isclosed. exec_cases Hrun; state_norm; done.
Qed.

(** X11. [Shutdown] is idempotent: called again right after it has
    returned, it changes nothing and flushes nothing. *)
Theorem Shutdown_twice (s : State) :
  closed (broadcast s) = false →
  ∃ s1 es1, Shutdown s = Ok (tt, s1, es1) ∧ Shutdown s1 = Ok (tt, s1, []).
Proof.
  intros Hopen. destruct (Shutdown_clears s Hopen) as (s1 & es1 & Hrun & Hb & Ht).
  exists s1, es1. split; [done|]. by apply Shutdown_idle.
Qed.

Lemma Stop_not_Armed (tm : Timer) : status (Stop tm) ≠ Armed.
Proof. unfold Stop. by destruct (status tm) eqn:Hst; simpl; rewrite ?Hst. Qed.

Ltac timer_lookup Hl :=
  repeat match type of Hl with
  | alter Stop ?t0 ?l !! ?t1 = Some _ =>
      let Hne := fresh "Hne" in
      destruct (decide (t0 = t1)) as [->|Hne];
      [ rewrite list_lookup_alter_eq in Hl;
        let tm0 := fresh "tm" in let Hl0 := fresh "Hl" in
        destruct (l !! t1) as [tm0|] eqn:Hl0; simpl in Hl; simplify_eq;
        by (exfalso; eapply Stop_not_Armed)
      | rewrite list_lookup_alter_ne in Hl by done ]
  | <[?t0 := ?x]> ?l !! ?t1 = Some _ =>
      let Hne := fresh "Hne" in
      destruct (decide (t0 = t1)) as [->|Hne];
      [ rewrite list_lookup_insert_eq in Hl by (by eapply lookup_lt_Some);
        by simplify_eq
      | rewrite list_lookup_insert_ne in Hl by done ]
  | (?l ++ [?x]) !! ?t1 = Some _ =>
      let Hlt := fresh "Hlt" in
      destruct (decide (t1 < length l)) as [Hlt|Hlt];
      [ rewrite lookup_app_l in Hl by done
      | rewrite lookup_app_r in Hl by lia;
        apply list_lookup_singleton_Some in Hl as [Hl ?];
        assert (t1 = length l) as -> by lia; clear Hl ]
  end.

Lemma exec_armed (ev : Event payload) (s s' : State) (es : list Effect) :
  armed_inv s → exec ev s = Ok (tt, s', es) → armed_inv s'.
Proof.
  unfold armed_inv. intros Hinv Hrun. destruct s as [cl br bb bt sd tm nw fo].
  simpl in Hinv.
  destruct ev; exec_cases Hrun; state_norm.
  all: try exact Hinv.
  all: intros t1 tm1 Hl Harm.
  all: timer_lookup Hl.
  all: try done.
  all: try (apply Hinv in Hl; [|done]; by simplify_eq).
Qed.

Lemma run_armed (schedule : list (Event payload)) (s s' : State) (es : list Effect) :
  armed_inv s → run schedule s = Ok (tt, s', es) → armed_inv s'.
Proof.
  revert s es. induction schedule as [|ev rest IH]; intros s es Hinv Hrun.
  - simpl in Hrun. unfold ret in Hrun. by simplify_eq.
  - apply run_cons_Ok in Hrun as (s1 & e1 & e2 & Hrun1 & Hrun2 & ->).
    eapply IH; [|done]. by eapply exec_armed.
Qed.

Lemma NewHub_armed_inv : armed_inv NewHub.
Proof. intros t tm Hl. done. Qed.

(** X12. No deadline is left armed behind: in every reachable state an
    armed timer is the one [batchTimer] points to, so at most one timer
    is armed at a time. *)
Theorem armed_timer_is_current (schedule : list (Event payload)) :
  ∃ s es,
    run schedule NewHub = Ok (tt, s, es) ∧
    ∀ t tm, timers s !! t = Some tm → status tm = Armed → batchTimer s = Some t.
Proof.
  destruct (run_step schedule NewHub NewHub_inv) as (s & es & Hrun & _).
  exists s, es. split; [done|].
  exact (run_armed schedule NewHub s es NewHub_armed_inv Hrun).
Qed.

(** The two parts of [flushBatch] and of [Shutdown], run without
    interruption, are the functions themselves. *)
Lemma flushBatch_halves (s : State) :
  flushBatch s = bind flushBatch_locked flushBatch_unlocked s.
Proof.
  destruct s as [cl br bb bt sd tm nw fo].
  unfold flushBatch, flushBatch_locked, flushBatch_unlocked, stop_batchTimer, submit.
  unfold_m. simpl.
  destruct bb as [|m ms]; [done|]. 
  destruct bt as [t|]; simpl;
    destruct (json_Marshal (mkMessage "batch" (DMessages (m :: ms)))) as [j|]; simpl;
    try done.
  all: unfold try_send; simpl; destruct (closed br); try done.
  all: destruct (decide (len br < cap br)); simpl.
  all: done.
Qed.


Lemma Shutdown_locked_spec (s : State) :
  Shutdown_locked s =
    Ok (match batchBuffer s with [] => None | _ :: _ => Some (batchBuffer s) end,
        mkState (clients s) (broadcast s) [] None (send s)
                (match batchTimer s with
                 | Some t => alter Stop t (timers s)
                 | None => timers s
                 end)
                (now s) (fanout s),
        match batchBuffer s with [] => [] | _ :: _ => [Flush (batchBuffer s)] end).
Proof.
  destruct s as [cl br bb bt sd tm nw fo].
  unfold Shutdown_locked, flushBatch_locked, stop_batchTimer. unfold_m. simpl.
  by destruct bt as [t|], bb as [|m ms].
Qed.


(** X13. When [Shutdown] releases [batchMutex], in a state where every
    armed timer is the one [batchTimer] points to, nothing is pending,
    [batchTimer] is nil and no timer is armed.  Nothing is said of the
    moment [Shutdown] returns: producers can run while the mutex is
    released. *)
Theorem Shutdown_locked_leaves_no_armed_timer (s : State) :
  armed_inv s →
  ∃ taken s' es,
    Shutdown_locked s = Ok (taken, s', es) ∧
    batchBuffer s' = [] ∧ batchTimer s' = None ∧
    ∀ t tm, timers s' !! t = Some tm → status tm ≠ Armed.
Proof.
  intros Hinv. eexists _, _, _. split; [apply Shutdown_locked_spec|].
  split; [done|]. split; [done|]. simpl. intros t tm Hl Harm.
  destruct (batchTimer s) as [t0|] eqn:Hbt.
  - destruct (decide (t0 = t)) as [->|Hne].
    + rewrite list_lookup_alter_eq in Hl.
      destruct (timers s !! t) as [tm0|]; simpl in Hl; simplify_eq.
      by eapply Stop_not_Armed.
    + rewrite list_lookup_alter_ne in Hl by done.
      specialize (Hinv t tm Hl Harm). congruence.
  - specialize (Hinv t tm Hl Harm). congruence.
Qed.

(** *** Connections, windows and deliveries end to end *)

Lemma size_open (l : list Chan) (X : gset nat) :
  (∀ c, c ∈ X ↔ ∃ ch, l !! c = Some ch ∧ closed ch = false) →
  size X = length (filter (λ ch, closed ch = false) l).
Proof.
  revert X. induction l as [|x l IH] using rev_ind; intros X HX.
  - assert (X = ∅) as ->; [|done].
    apply set_eq. intros c. rewrite HX. set_solver.
  - rewrite filter_app, length_app.
    rewrite <- (IH (X ∖ {[length l]})).
    + destruct (decide (closed x = false)) as [Hopen|Hclosed].
      * rewrite filter_cons_True by done. simpl.
        assert (length l ∈ X) as Hin
          by (apply HX; exists x; by rewrite lookup_snoc).
        rewrite size_difference by set_solver. rewrite size_singleton.
        assert (size X ≠ 0) by (apply size_non_empty_iff; set_solver). lia.
      * rewrite filter_cons_False by done. simpl.
        assert (length l ∉ X) as Hnotin.
        { intros (ch & Hl & Hopen)%HX. rewrite lookup_snoc in Hl. by simplify_eq. }
        replace (X ∖ {[length l]}) with X by set_solver. lia.
    + intros c. rewrite elem_of_difference, HX, not_elem_of_singleton. split.
      * intros [(ch & Hl & Hopen) Hne]. exists ch. split; [|done].
        destruct (decide (c < length l)); [by rewrite lookup_app_l in Hl|].
        apply lookup_lt_Some in Hl. rewrite length_app in Hl. simpl in Hl. lia.
      * intros (ch & Hl & Hopen). split.
        -- exists ch. split; [|done]. rewrite lookup_app_l; [done|].
           by eapply lookup_lt_Some.
        -- apply lookup_lt_Some in Hl. lia.
Qed.

(** X14. The client count is the number of live connections: in every
    reachable state [GetClientCount] equals the number of clients
    handed to [Run] whose [send] queue is open. *)
Theorem client_count_is_open_queues (schedule : list (Event payload)) :
  ∃ s es,
    run schedule NewHub = Ok (tt, s, es) ∧
    GetClientCount s = length (filter (λ ch, closed ch = false) (send s)).
Proof.
  destruct (run_step schedule NewHub NewHub_inv) as (s & es & Hrun & Hst).
  exists s, es. split; [done|].
  pose proof (step_inv _ _ _ Hst) as Hinv.
  unfold GetClientCount. rewrite <- size_dom. apply size_open.
  intros c. split.
  - intros Hin. destruct (inv_allocated _ Hinv c Hin) as [ch Hch].
    exists ch. split; [done|]. by apply (inv_active_open _ Hinv c ch Hch).
  - intros (ch & Hch & Hopen). by apply (inv_active_open _ Hinv c ch Hch).
Qed.

Lemma exec_ServeWS_ok (r : Request) (logs : list LogLine) (s : State) :
  fanout s = None → Upgrade r = (true, logs) →
  exec (EvServeWS r) s =
    Ok (tt,
        set_clients (λ m, <[length (send s) := true]> m)
                    (set_send (λ l, l ++ [make 256]) s),
        (Log <$> logs) ++
        [Insert (length (send s));
         Log (LogClientConnected (size (<[length (send s) := true]> (clients s))))]).
Proof.
  intros Hidle Hup. unfold exec. rewrite bind_get; cbv beta iota.
  unfold idle. rewrite Hidle, Hup. cbn [fst negb andb].
  unfold ServeWS. rewrite Hup. unfold_m. simpl. done.
Qed.

(** X15. A connection that is served and whose [readPump] then returns
    leaves the registry as it was: [h.clients] and the client count are
    unchanged, the count was logged one higher in between, and the
    queue made for the client has been closed by exactly one [close]. *)
Theorem connect_then_disconnect (s : State) (r : Request) (logs : list LogLine) :
  registry_inv s → fanout s = None → Upgrade r = (true, logs) →
  ∃ s',
    run [EvServeWS r; EvReadPumpExit (length (send s))] s =
      Ok (tt, s',
          (Log <$> logs) ++
          [Insert (length (send s));
           Log (LogClientConnected (S (GetClientCount s)));
           Close (length (send s));
           Log (LogClientDisconnected (GetClientCount s))]) ∧
    clients s' = clients s ∧
    send s' = send s ++ [mkChan [] 256 true] ∧
    GetClientCount s' = GetClientCount s.
Proof.
  intros Hinv Hidle Hup.
  assert (clients s !! length (send s) = None) as Hfresh.
  { apply not_elem_of_dom. intros Hin.
    destruct (inv_allocated _ Hinv _ Hin) as [ch Hch].
    apply lookup_lt_Some in Hch. lia. }
  rewrite run_cons. unfold bind at 1. rewrite (exec_ServeWS_ok r logs s Hidle Hup).
  rewrite run_singleton. unfold exec. rewrite bind_get; cbv beta iota.
  unfold idle. state_norm. rewrite Hidle. unfold readPump_exit.
  erewrite Run_unregister_present;
    [| state_norm; apply lookup_insert_eq | state_norm; apply lookup_snoc | done].
  state_norm. cbn [buf cap make].
  rewrite (delete_insert_id _ _ _ Hfresh), insert_snoc, (map_size_insert_None _ _ _ Hfresh).
  eexists. split; [unfold GetClientCount; by rewrite <- app_assoc|].
  unfold GetClientCount. by state_norm.
Qed.

Lemma timer_idle (s : State) (t : nat) (tm : Timer) :
  timers s !! t = Some tm → status tm = Ran →
  run [EvTimerExpire t; EvTimerFunc t] s = Ok (tt, s, []).
Proof.
  intros Hl Hst. rewrite !run_cons. unfold run.
  unfold bind at 1, exec at 1. rewrite bind_get; cbv beta iota.
  unfold timer_expire. rewrite bind_get; cbv beta. rewrite Hl, Hst. unfold ret at 1.
  unfold bind at 1, exec at 1. rewrite bind_get; cbv beta iota.
  unfold timer_func. rewrite bind_get; cbv beta. by rewrite Hl, Hst.
Qed.

Lemma window_elapses (s : State) (m : Message payload) (ms : list (Message payload))
    (t : nat) (due d : Z) (tm : list Timer) :
  batchBuffer s = m :: ms → batchTimer s = Some t → closed (broadcast s) = false →
  timers s = tm ++ [mkTimer due Armed] → t = length tm → (due ≤ now s + d)%Z →
  (0 ≤ d)%Z →
  ∃ s2 es,
    run [EvSleep d; EvTimerExpire t; EvTimerFunc t] s = Ok (tt, s2, es) ∧
    flushes es = [m :: ms] ∧ batchBuffer s2 = [] ∧ batchTimer s2 = None ∧
    timers s2 = tm ++ [mkTimer due Ran].
Proof.
  intros Hbb Hbt Hb Htm -> Hdue Hd.
  destruct s as [cl br bb bt sd tms nw fo]. simpl in Hbb, Hbt, Hb, Htm, Hdue.
  subst bb bt tms.
  rewrite !run_cons. unfold run.
  unfold bind at 1, exec at 1. rewrite bind_get; cbv beta iota.
  rewrite decide_True by done. unfold modify at 1. state_norm.
  unfold bind at 1, exec at 1. rewrite bind_get; cbv beta iota.
  unfold timer_expire. rewrite bind_get; cbv beta.
  state_norm. rewrite lookup_snoc. cbn [status deadline].
  rewrite decide_True by lia. unfold modify at 1. state_norm.
  rewrite insert_snoc.
  unfold bind at 1, exec at 1. rewrite bind_get; cbv beta iota.
  unfold timer_func. rewrite bind_get; cbv beta. state_norm.
  rewrite lookup_snoc. cbn [status deadline].
  unfold bind at 1, modify at 1. state_norm. rewrite insert_snoc.
  unfold batchTimer_func. rewrite bind_get; cbv beta. state_norm.
  erewrite flushBatch_cons by (simpl; done).
  state_norm. rewrite alter_snoc. cbn [Stop status deadline].
  destruct (json_Marshal (mkMessage "batch" (DMessages (m :: ms)))) as [j|];
    [destruct (decide (len br < cap br))|];
    cbv beta iota zeta; unfold ret; state_norm; eexists _, _; (split; [reflexivity|]);
    done.
Qed.

(** X16. Fewer than [maxBatchSize] messages added to an empty buffer are
    flushed by the deadline: the adds flush nothing and arm one timer
    whose deadline is one batch window after the first add; as long as
    less than the window has elapsed the timer does not fire and nothing
    is flushed; once the window has elapsed the timer function flushes
    all of them as one batch in the order added, leaving nothing pending
    and [batchTimer] nil, and the same timer never acts again. *)
Theorem window_flushes_pending
    (s : State) (ms : list (string * Data payload)) (early d : Z) :
  batchBuffer s = [] → batchTimer s = None → closed (broadcast s) = false →
  0 < length ms < maxBatchSize →
  (0 ≤ early < batchWindow)%Z → (batchWindow ≤ d)%Z →
  ∃ s1 s2 es,
    run (map (λ m, EvBroadcastMessageBatched m.1 m.2) ms) s = Ok (tt, s1, []) ∧
    batchBuffer s1 = map (λ m, mkMessage m.1 m.2) ms ∧
    batchTimer s1 = Some (length (timers s)) ∧
    timers s1 = timers s ++ [mkTimer (now s + batchWindow) Armed] ∧
    now s1 = now s ∧
    run [EvTimerExpire (length (timers s)); EvTimerFunc (length (timers s))] s1
      = Ok (tt, s1, []) ∧
    run [EvSleep early; EvTimerExpire (length (timers s));
         EvTimerFunc (length (timers s))] s1
      = Ok (tt, set_now (now s + early) s1, []) ∧
    run [EvSleep d; EvTimerExpire (length (timers s)); EvTimerFunc (length (timers s))] s1
      = Ok (tt, s2, es) ∧
    flushes es = [map (λ m, mkMessage m.1 m.2) ms] ∧
    batchBuffer s2 = [] ∧ batchTimer s2 = None ∧
    run [EvTimerExpire (length (timers s)); EvTimerFunc (length (timers s))] s2
      = Ok (tt, s2, []).
Proof.
  intros Hbb Hbt Hb [Hpos Hlt] [Hearly0 Hearly] Hd.
  destruct s as [cl br bb bt sd tm nw fo]. simpl in Hbb, Hbt, Hb.
  subst bb bt. cbn [clients broadcast batchBuffer batchTimer send timers now fanout].
  rewrite adds_below by (simpl; lia).
  destruct ms as [|m0 ms]; [simpl in Hpos; lia|].
  cbn [clients broadcast batchBuffer batchTimer send timers now fanout app].
  assert (0 < batchWindow)%Z as Hbw by (unfold batchWindow, Millisecond; lia).
  set (s1 := mkState cl br _ _ _ _ _ _).
  destruct (window_elapses s1 (mkMessage m0.1 m0.2) (map (λ m, mkMessage m.1 m.2) ms)
              (length tm) (nw + batchWindow) d tm)
    as (s2 & es & Hrun & Hfl & Hbb2 & Hbt2 & Htm2); try done; [simpl; lia | lia |].
  exists s1, s2, es. split; [done|]. split; [done|].
  split; [done|]. split; [done|]. split; [done|]. split.
  { subst s1. rewrite !run_cons. unfold run.
    unfold bind at 1, exec at 1. rewrite bind_get; cbv beta iota.
    unfold timer_expire. rewrite bind_get; cbv beta.
    state_norm. rewrite lookup_snoc. cbn [status deadline].
    rewrite decide_False by lia. unfold ret at 1.
    unfold bind at 1, exec at 1. rewrite bind_get; cbv beta iota.
    unfold timer_func. rewrite bind_get; cbv beta. state_norm.
    rewrite lookup_snoc. cbn [status deadline]. done. }
  split.
  { subst s1. rewrite !run_cons. unfold run.
    unfold bind at 1, exec at 1. rewrite bind_get; cbv beta iota.
    rewrite decide_True by done. unfold modify at 1. state_norm.
    unfold bind at 1, exec at 1. rewrite bind_get; cbv beta iota.
    unfold timer_expire. rewrite bind_get; cbv beta.
    state_norm. rewrite lookup_snoc. cbn [status deadline].
    rewrite decide_False by lia. unfold ret at 1.
    unfold bind at 1, exec at 1. rewrite bind_get; cbv beta iota.
    unfold timer_func. rewrite bind_get; cbv beta. state_norm.
    rewrite lookup_snoc. cbn [status deadline]. done. }
  split; [done|]. split; [done|]. split; [done|]. split; [done|].
  eapply timer_idle; [rewrite Htm2; apply lookup_snoc | done].
Qed.


Lemma exec_writePump_queued (s : State) (c : nat) (ch : Chan)
    (message : bytes) (queued : list bytes) :
  send s !! c = Some ch → buf ch = message :: queued →
  exec (EvWritePump c) s =
    Ok (tt, set_send (λ l, <[c := mkChan [] (cap ch) (closed ch)]> l) s,
        [Frame c (frame_of message queued)]).
Proof.
  intros Hs Hbuf. unfold exec. rewrite bind_get; cbv beta iota.
  unfold writePump_recv. rewrite bind_get; cbv beta. rewrite Hs, Hbuf.
  by unfold_m.
Qed.

Lemma exec_BroadcastMessage_room (s : State) (eventType : string)
    (data : Data payload) (jsonData : bytes) :
  closed (broadcast s) = false → len (broadcast s) < cap (broadcast s) →
  json_Marshal (mkMessage eventType data) = Some jsonData →
  exec (EvBroadcastMessage eventType data) s =
    Ok (tt,
        set_broadcast (mkChan (buf (broadcast s) ++ [jsonData])
                              (cap (broadcast s)) false) s,
        [Submit jsonData]).
Proof.
  intros Hopen Hroom Hjson. unfold exec, BroadcastMessage, submit, try_send.
  unfold_m. rewrite Hjson, Hopen. by rewrite decide_True.
Qed.

(** X17. From producer to socket: with the hub idle and [h.broadcast]
    empty, a message given to [BroadcastMessage] is, after the delivery
    pass of [Run] and the next receive of [writePump], written to every
    registered client whose queue had room, in one frame behind what was
    already queued; the queue is then empty and the client is still
    registered. *)
Theorem broadcast_reaches_connection
    (s : State) (snapshot : list nat) (c : nat) (ch : Chan)
    (eventType : string) (data : Data payload) (jsonData : bytes) :
  registry_inv s → fanout s = None → is_snapshot snapshot s →
  buf (broadcast s) = [] → 0 < cap (broadcast s) →
  json_Marshal (mkMessage eventType data) = Some jsonData →
  c ∈ dom (clients s) → send s !! c = Some ch → len ch < cap ch →
  ∃ s' es,
    run (EvBroadcastMessage eventType data ::
         (EvRunBroadcast snapshot :: replicate (length snapshot) EvRunDeliver) ++
         [EvWritePump c]) s = Ok (tt, s', es) ∧
    Frame c (String.concat newline (buf ch ++ [jsonData])) ∈ es ∧
    send s' !! c = Some (mkChan [] (cap ch) false) ∧
    c ∈ dom (clients s').
Proof.
  intros Hinv Hidle Hsnap Hbuf Hcap Hjson Hin Hs Hroom.
  pose proof (inv_broadcast_open _ Hinv) as Hopen.
  set (s0 := set_broadcast (mkChan [] (cap (broadcast s)) false)
               (set_broadcast (mkChan [jsonData] (cap (broadcast s)) false) s)).
  assert (registry_inv s0) as Hinv0.
  { split; [apply Hinv | apply Hinv | done | apply Hinv]. }
  assert (c ∈ snapshot) as Hcs.
  { destruct Hsnap as [_ Hdom]. rewrite <- Hdom in Hin. by apply elem_of_list_to_set in Hin. }
  destruct (Run_deliver_spec jsonData snapshot s0 Hinv0 Hidle) as
    (s2 & es2 & Hdel & Hst & Hidle2 & Hsend);
    [apply Hsnap | intros c' Hc'; destruct Hsnap as [_ Hdom];
                   change (clients s0) with (clients s); rewrite <- Hdom;
                   by apply elem_of_list_to_set |].
  specialize (Hsend c ch Hs).
  rewrite decide_True in Hsend by done. rewrite decide_True in Hsend by done.
  destruct (buf ch ++ [jsonData]) as [|m q] eqn:Hq;
    [by apply app_eq_nil in Hq as [_ ?]|].
  set (s1 := set_broadcast (mkChan [jsonData] (cap (broadcast s)) false) s) in *.
  assert (Run_broadcast snapshot s1 = Ok (tt, s2, es2)) as Hrb.
  { unfold Run_broadcast. rewrite bind_get; cbv beta.
    change (buf (broadcast s1)) with [jsonData]. cbv iota.
    unfold bind, modify.
    change (set_broadcast _ s1) with s0. by rewrite Hdel. }
  rewrite run_cons. unfold bind at 1.
  rewrite (exec_BroadcastMessage_room s eventType data jsonData Hopen)
    by (done || (unfold len; rewrite Hbuf; simpl; lia)).
  rewrite Hbuf. change ([] ++ [jsonData]) with [jsonData]. fold s1.
  rewrite run_app. unfold bind at 1.
  rewrite Run_broadcast_steps, Hrb by done.
  rewrite run_singleton, (exec_writePump_queued s2 c _ m q Hsend) by done.
  eexists _, _. split; [reflexivity|]. split; [|split].
  - rewrite <- frame_of_concat. set_solver.
  - state_norm. cbn [cap closed]. apply list_lookup_insert_eq.
    by eapply lookup_lt_Some.
  - state_norm.
    by apply (inv_active_open _ (step_inv _ _ _ Hst) c _ Hsend).
Qed.

End Proofs.

(** ** The chain list of the web client: proofs *)

Section WebProofs.
Import Web.

(** The test, once true, stays true as the list grows. *)
Lemma length_ge_mono (n k : nat) (maxChains : Number) :
  length_ge n maxChains = true → n ≤ k → length_ge k maxChains = true.
Proof.
  destruct maxChains as [q| | |]; simpl; try done.
  intros Hn Hle. apply QArith_base.Qle_bool_iff in Hn.
  apply QArith_base.Qle_bool_iff.
  eapply QArith_base.Qle_trans; [exact Hn|].
  rewrite <- QArith_base.Zle_Qle. lia.
Qed.

(** For a whole limit the test is the comparison of integers. *)
Lemma length_ge_Integer (n : nat) (z : Z) :
  length_ge n (Integer z) = true ↔ (z ≤ Z.of_nat n)%Z.
Proof.
  unfold Integer. simpl.
  by rewrite QArith_base.Qle_bool_iff, <- QArith_base.Zle_Qle.
Qed.

Lemma loop_inv_push (seen : gset string) (ids : list string) (id : string) :
  loop_inv seen ids → truthy id = true → id ∉ seen →
  loop_inv ({[id]} ∪ seen) (ids ++ [id]).
Proof.
  intros [-> Hnd Htr] Hid Hnew. split.
  - rewrite list_to_set_app_L. simpl. set_solver.
  - apply NoDup_app. split; [done|]. split; [|apply NoDup_singleton].
    intros x Hx ->%list_elem_of_singleton. apply Hnew. by apply elem_of_list_to_set.
  - intros x [Hx| ->%list_elem_of_singleton]%elem_of_app; [by apply Htr|].
    unfold truthy in Hid. apply negb_true_iff, bool_decide_eq_false in Hid. done.
Qed.

Lemma uniqueRequestIds_loop_spec (maxChains : Number) (calls : list ToolCall)
    (seen : gset string) (ids : list string) :
  loop_inv seen ids →
  ∃ new,
    uniqueRequestIds_loop maxChains calls seen ids = ids ++ new ∧
    loop_inv (seen ∪ list_to_set new) (ids ++ new) ∧
    new `sublist_of` (requestId <$> calls) ∧
    (∀ k, length_ge k maxChains = true →
          length (ids ++ new) ≤ max (length ids + 1) k) ∧
    (length_ge (length (ids ++ new)) maxChains = false →
       ∀ call, call ∈ calls → requestId call ≠ "" → requestId call ∈ ids ++ new).
Proof.
  revert seen ids. induction calls as [|call rest IH]; intros seen ids Hinv.
  - exists []. rewrite app_nil_r. split; [done|]. split.
    + simpl. by replace (seen ∪ ∅) with seen by set_solver.
    + split; [done|]. split; [intros; lia|].
      intros _ call Hin. by apply elem_of_nil in Hin.
  - cbn [uniqueRequestIds_loop].
    destruct (truthy (requestId call) && negb (bool_decide (requestId call ∈ seen)))
      eqn:Hcond.
    + apply andb_true_iff in Hcond as [Htr Hnew].
      apply negb_true_iff, bool_decide_eq_false in Hnew.
      pose proof (loop_inv_push seen ids _ Hinv Htr Hnew) as Hinv'.
      destruct (length_ge (length (ids ++ [requestId call])) maxChains) eqn:Hlim.
      * exists [requestId call]. split; [done|]. split.
        { simpl. by replace (seen ∪ ({[requestId call]} ∪ ∅))
            with ({[requestId call]} ∪ seen) by set_solver. }
        split; [simpl; apply sublist_skip, sublist_nil_l|].
        split; [intros; rewrite length_app; simpl; lia|].
        intros Hlt. congruence.
      * destruct (IH _ _ Hinv') as (new & Heq & Hinv'' & Hsub & Hlen & Hall).
        exists (requestId call :: new). rewrite Heq, <- app_assoc. simpl.
        rewrite <- app_assoc in Hinv'', Hlen, Hall. simpl in Hinv'', Hlen, Hall.
        split; [done|]. split.
        { by replace (seen ∪ ({[requestId call]} ∪ list_to_set new))
            with ({[requestId call]} ∪ seen ∪ list_to_set new) by set_solver. }
        split; [by apply sublist_skip|].
        split.
        { intros k Hk. specialize (Hlen k Hk).
          assert (length (ids ++ [requestId call]) < k) as Hbelow.
          { destruct (decide (length (ids ++ [requestId call]) < k)); [done|].
            assert (k ≤ length (ids ++ [requestId call])) as Hkle by lia.
            by rewrite (length_ge_mono k _ maxChains Hk Hkle) in Hlim. }
          repeat rewrite length_app in Hlen. rewrite length_app in Hbelow.
          rewrite length_app. simpl in *. lia. }
        intros Hlt c' [->|Hin]%elem_of_cons Hne; [set_solver|]. by apply Hall.
    + destruct (IH _ _ Hinv) as (new & Heq & Hinv'' & Hsub & Hlen & Hall).
      exists new. split; [done|]. split; [done|].
      split; [simpl; by apply sublist_cons|]. split; [done|].
      intros Hlt c' [->|Hin]%elem_of_cons Hne; [|by apply Hall].
      apply andb_false_iff in Hcond as [Htr|Hseen].
      * unfold truthy in Htr. apply negb_false_iff, bool_decide_eq_true in Htr. done.
      * apply negb_false_iff, bool_decide_eq_true in Hseen.
        destruct Hinv as [-> _ _]. apply elem_of_list_to_set in Hseen.
        apply elem_of_app. by left.
Qed.

Lemma loop_inv_empty : loop_inv ∅ [].
Proof. split; [done | constructor | by intros ? ?%elem_of_nil]. Qed.


(** X19. At most [k] ids are picked for every whole number [k] of at
    least one with [k >= maxChains]: at most [maxChains] rounded up, and
    at most one when [maxChains] is below one.  A limit of NaN or
    Infinity gives no such [k], and the list is not cut. *)
Theorem uniqueRequestIds_length
    (maxChains : Number) (recentToolCalls : list ToolCall) (k : nat) :
  1 ≤ k → length_ge k maxChains = true →
  length (uniqueRequestIds maxChains recentToolCalls) ≤ k.
Proof.
  intros Hk Hge. unfold uniqueRequestIds.
  destruct (uniqueRequestIds_loop_spec maxChains recentToolCalls ∅ [] loop_inv_empty)
    as (new & -> & _ & _ & Hlen & _).
  specialize (Hlen k Hge). simpl in *. lia.
Qed.

(** X20. When the list returned has not reached the limit, that is
    [ids.length >= maxChains] is false of it, nothing was cut off: every
    non-empty request id among the recent tool calls is in the list. *)
Theorem uniqueRequestIds_complete (maxChains : Number) (recentToolCalls : list ToolCall) :
  length_ge (length (uniqueRequestIds maxChains recentToolCalls)) maxChains = false →
  ∀ call, call ∈ recentToolCalls → requestId call ≠ "" →
    requestId call ∈ uniqueRequestIds maxChains recentToolCalls.
Proof.
  unfold uniqueRequestIds.
  destruct (uniqueRequestIds_loop_spec maxChains recentToolCalls ∅ [] loop_inv_empty)
    as (new & -> & _ & _ & _ & Hall).
  done.
Qed.

(** X21. The limit is tested only after an id has been pushed: with
    [maxChains] at or below one, zero and negative limits included, the
    list is the first non-empty request id alone, if there is one. *)
Theorem uniqueRequestIds_limit_below_one
    (maxChains : Number) (recentToolCalls : list ToolCall) :
  length_ge 1 maxChains = true →
  uniqueRequestIds maxChains recentToolCalls =
    take 1 (filter (λ id, id ≠ "") (requestId <$> recentToolCalls)).
Proof.
  intros Hmax. unfold uniqueRequestIds.
  induction recentToolCalls as [|call rest IH]; [done|].
  cbn [uniqueRequestIds_loop fmap list_fmap].
  rewrite bool_decide_eq_false_2 by set_solver. rewrite andb_true_r.
  rewrite filter_cons. unfold truthy.
  destruct (decide (requestId call ≠ "")) as [Hne|Heq].
  - rewrite bool_decide_eq_false_2 by done. cbn [negb].
    cbn [app length]. by rewrite Hmax.
  - apply dec_stable in Heq. rewrite bool_decide_eq_true_2 by done. cbn [negb].
    apply IH.
Qed.
End WebProofs.

(** ** The model on concrete runs *)

Example pingPeriod_is_54s : pingPeriod = (54 * Second)%Z.
Proof. reflexivity. Qed.

Example one_client_reached :
  run [EvServeWS plain_request] NewHub
  = Ok (tt, one_client, [Insert 0; Log (LogClientConnected 1)]).
Proof. vm_compute. reflexivity. Qed.

Example CheckOrigin_no_origin : CheckOrigin plain_request = (true, []).
Proof. reflexivity. Qed.

Example CheckOrigin_listed :
  CheckOrigin (request_from "http://localhost:3000")
  = (true, [LogOriginAllowed "http://localhost:3000"]).
Proof. vm_compute. reflexivity. Qed.

Example CheckOrigin_unlisted :
  CheckOrigin (request_from "http://evil.example")
  = (false, [LogOriginRejected "http://evil.example"]).
Proof. vm_compute. reflexivity. Qed.

Example close_frame_reached :
  run [EvServeWS plain_request; EvReadPumpExit 0; EvWritePump 0] (@NewHub GoValue)
  = Ok (tt, mkState ∅ (make 256) [] None [mkChan [] 256 true] [] 0 None,
        [Insert 0; Log (LogClientConnected 1);
         Close 0; Log (LogClientDisconnected 0); CloseFrame 0]).
Proof. vm_compute. reflexivity. Qed.

Example slow_client_evicted_at_capacity :
  ∃ s es,
    run (flood 257) NewHub = Ok (tt, s, es) ∧
    closes 0 es = 1 ∧ length (enqueued 0 es) = 256 ∧
    GetClientCount s = 0 ∧ length (queue s 0) = 256.
Proof.
  eexists _, _. split; [vm_compute; reflexivity|]. vm_compute. done.
Qed.

Example fractional_limit_rounds_up :
  Web.uniqueRequestIds Web.two_and_a_half Web.four_agents = ["req-a"; "req-b"; "req-c"].
Proof. vm_compute. reflexivity. Qed.

Example NaN_limit_never_cuts :
  Web.uniqueRequestIds Web.NaN Web.four_agents = ["req-a"; "req-b"; "req-c"; "req-d"].
Proof. vm_compute. reflexivity. Qed.

Lemma one_client_inv : registry_inv one_client.
Proof.
  split; simpl; try done.
  - intros [|c] ch Hs; simpl in Hs; [|by destruct c].
    inversion Hs; subst; simpl. rewrite dom_singleton_L. set_solver.
  - intros c Hin. rewrite dom_singleton_L in Hin.
    apply elem_of_singleton in Hin as ->. by eexists.
Qed.

Lemma slow_and_fast_inv : registry_inv slow_and_fast.
Proof.
  split; simpl; try done.
  - intros [|[|c]] ch Hs; simpl in Hs; try done;
      inversion Hs; subst; simpl; rewrite !dom_insert_L; set_solver.
  - intros c Hin. rewrite dom_insert_L, dom_singleton_L in Hin.
    assert (c = 0 ∨ c = 1) as [-> | ->] by set_solver; by eexists.
Qed.

(** C8 on the code: the function of the timer armed for the first window
    runs late and flushes the second window.  After
    [stale_timer_schedule] tick 10 is pending under timer 1, whose
    deadline is one more window away and which cannot fire yet; the
    function of timer 0, started before the size-triggered flush, finds
    [batchTimer] non-nil and flushes tick 10 at once, stopping timer 1. *)
Theorem stale_timer_flushes_next_window :
  ∃ s s',
    run stale_timer_schedule NewHub
      = Ok (tt, s, [Flush (map (tick_message VTick) (seq 0 10));
                    Submit (batch_json 0 10)]) ∧
    batchBuffer s = [tick_message VTick 10] ∧
    batchTimer s = Some 1 ∧
    timers s = [mkTimer batchWindow Fired; mkTimer (2 * batchWindow) Armed] ∧
    now s = batchWindow ∧
    exec (EvTimerExpire 1) s = Ok (tt, s, []) ∧
    exec (EvTimerFunc 0) s
      = Ok (tt, s', [Flush [tick_message VTick 10]; Submit (batch_json 10 1)]) ∧
    batchBuffer s' = [] ∧ batchTimer s' = None ∧
    timers s' = [mkTimer batchWindow Ran; mkTimer (2 * batchWindow) Stopped].
Proof.
  eexists _, _. split; [vm_compute; reflexivity|].
  repeat split; vm_compute; reflexivity.
Qed.


(** ** The theorems at concrete inputs *)

Lemma broadcast_evicts_full_queue_witness :
  registry_inv slow_and_fast ∧ fanout slow_and_fast = None ∧
  is_snapshot [1; 0] slow_and_fast ∧
  buf (broadcast slow_and_fast) = ["ping"] ∧
  ∃ s' es,
    Run_broadcast [1; 0] slow_and_fast = Ok (tt, s', es) ∧
    (0 ∉ dom (clients s')) ∧ closes 0 es = 1 ∧
    (1 ∈ dom (clients s')) ∧ closes 1 es = 0 ∧
    send s' !! 1 = Some (mkChan ["ping"] 256 false).
Proof.
  assert (is_snapshot [1; 0] slow_and_fast) as Hsnap
    by (refine (bool_decide_unpack _ _); vm_compute; exact I).
  split; [exact slow_and_fast_inv|]. split; [reflexivity|].
  split; [exact Hsnap|]. split; [reflexivity|].
  destruct (broadcast_evicts_full_queue slow_and_fast [1; 0] "ping" []
              slow_and_fast_inv eq_refl Hsnap eq_refl)
    as (s' & es & Hrun & _ & Hall).
  exists s', es. split; [exact Hrun|].
  pose proof (Hall 0 _ ltac:(set_solver) eq_refl) as H0.
  pose proof (Hall 1 _ ltac:(set_solver) eq_refl) as H1.
  rewrite decide_False in H0 by (vm_compute; lia).
  rewrite decide_True in H1 by (vm_compute; lia).
  destruct H0 as (H0a & H0b & _). destruct H1 as (H1a & H1b & H1c).
  repeat split; assumption.
Defined.

Lemma unregister_twice_witness :
  registry_inv one_client ∧
  ∃ s1 es1,
    Run_unregister 0 one_client = Ok (tt, s1, es1) ∧
    clients s1 = delete 0 (clients one_client) ∧
    (∀ ch, send s1 !! 0 = Some ch → closed ch = true) ∧
    closes 0 es1 = (if decide (0 ∈ dom (clients one_client)) then 1 else 0) ∧
    times 2 (Run_unregister 0) s1 =
      Ok (tt, s1, replicate 2 (Log (LogClientDisconnected (GetClientCount s1)))).
Proof.
  split; [exact one_client_inv|].
  exact (unregister_twice one_client 0 2 one_client_inv).
Defined.

Lemma threshold_flushes_once_witness :
  batchBuffer (@NewHub GoValue) = [] ∧
  closed (broadcast (@NewHub GoValue)) = false ∧
  length (map (λ i, ("tick", DValue (VTick i))) (seq 0 10)) = maxBatchSize ∧
  ∃ s' es,
    run (map tick (seq 0 10)) NewHub = Ok (tt, s', es) ∧
    flushes es = [map (tick_message VTick) (seq 0 10)] ∧
    batchBuffer s' = [] ∧ batchTimer s' = None ∧
    timers s' = [mkTimer batchWindow Stopped].
Proof.
  split; [reflexivity|]. split; [reflexivity|]. split; [reflexivity|].
  exact (threshold_flushes_once NewHub
           (map (λ i, ("tick", DValue (VTick i))) (seq 0 10))
           eq_refl eq_refl eq_refl).
Defined.

Lemma fifteen_ticks_two_batches_witness :
  batchBuffer (@NewHub GoValue) = [] ∧ batchTimer (@NewHub GoValue) = None ∧
  closed (broadcast (@NewHub GoValue)) = false ∧
  len (broadcast (@NewHub GoValue)) + 2 ≤ cap (broadcast (@NewHub GoValue)) ∧
  json_Marshal (mkMessage "batch" (DMessages (map (tick_message VTick) (seq 0 10))))
    = Some (batch_json 0 10) ∧
  json_Marshal (mkMessage "batch" (DMessages (map (tick_message VTick) (seq 10 5))))
    = Some (batch_json 10 5) ∧
  ∃ s1 s2,
    run (map tick (seq 0 15)) NewHub
      = Ok (tt, s1, [Flush (map (tick_message VTick) (seq 0 10));
                     Submit (batch_json 0 10)]) ∧
    batchBuffer s1 = map (tick_message VTick) (seq 10 5) ∧
    run [EvSleep batchWindow; EvTimerExpire 1; EvTimerFunc 1] s1
      = Ok (tt, s2, [Flush (map (tick_message VTick) (seq 10 5));
                     Submit (batch_json 10 5)]) ∧
    buf (broadcast s2) = [batch_json 0 10; batch_json 10 5] ∧
    batchBuffer s2 = [].
Proof.
  assert (len (broadcast (@NewHub GoValue)) + 2 ≤ cap (broadcast (@NewHub GoValue)))
    as Hroom by (vm_compute; lia).
  split; [reflexivity|]. split; [reflexivity|]. split; [reflexivity|].
  split; [exact Hroom|]. split; [reflexivity|]. split; [reflexivity|].
  destruct (fifteen_ticks_two_batches NewHub VTick (batch_json 0 10) (batch_json 10 5)
              eq_refl eq_refl eq_refl Hroom eq_refl eq_refl)
    as (s1 & s2 & H1 & _ & H3 & _ & _ & _ & H7 & H8 & H9 & _).
  exists s1, s2. repeat split; assumption.
Defined.

Lemma BroadcastMessage_never_blocks_witness :
  closed (broadcast (@NewHub GoValue)) = false ∧
  (∃ s' jsonData,
     BroadcastMessage "x" (DValue (VInt 1)) NewHub = Ok (tt, s', [Submit jsonData]) ∧
     buf (broadcast s') = [jsonData]) ∧
  BroadcastMessage "x" (DValue VChan) NewHub = Ok (tt, NewHub, [Log LogMarshalError]).
Proof.
  split; [reflexivity|]. split.
  - destruct (BroadcastMessage_never_blocks NewHub "x" (DValue (VInt 1)) eq_refl)
      as (s' & es & Hrun & Hcase).
    vm_compute in Hcase. destruct Hcase as [-> ->].
    eexists _, _. split; [exact Hrun | reflexivity].
  - destruct (BroadcastMessage_never_blocks (@NewHub GoValue) "x" (DValue VChan) eq_refl)
      as (s' & es & Hrun & Hcase).
    vm_compute in Hcase. destruct Hcase as [-> ->]. exact Hrun.
Defined.


Lemma Shutdown_twice_witness :
  closed (broadcast two_pending) = false ∧
  ∃ s1 es1,
    Shutdown two_pending = Ok (tt, s1, es1) ∧ Shutdown s1 = Ok (tt, s1, []).
Proof.
  split; [reflexivity|]. exact (Shutdown_twice two_pending eq_refl).
Defined.

Lemma connect_then_disconnect_witness :
  registry_inv one_client ∧ fanout one_client = None ∧
  Upgrade plain_request = (true, []) ∧
  ∃ s',
    run [EvServeWS plain_request; EvReadPumpExit 1] one_client =
      Ok (tt, s',
          [Insert 1; Log (LogClientConnected 2);
           Close 1; Log (LogClientDisconnected 1)]) ∧
    clients s' = clients one_client ∧
    send s' = [make 256; mkChan [] 256 true] ∧
    GetClientCount s' = 1.
Proof.
  split; [exact one_client_inv|]. split; [reflexivity|]. split; [reflexivity|].
  exact (connect_then_disconnect one_client plain_request []
           one_client_inv eq_refl eq_refl).
Defined.

Lemma Shutdown_locked_leaves_no_armed_timer_witness :
  armed_inv two_pending ∧
  ∃ taken s' es,
    Shutdown_locked two_pending = Ok (taken, s', es) ∧
    batchBuffer s' = [] ∧ batchTimer s' = None ∧
    ∀ t tm, timers s' !! t = Some tm → status tm ≠ Armed.
Proof.
  assert (armed_inv two_pending) as Hinv.
  { intros [|t] tm Hl Harm; [reflexivity|]. simpl in Hl. by destruct t. }
  split; [exact Hinv|].
  exact (Shutdown_locked_leaves_no_armed_timer two_pending Hinv).
Defined.

Lemma window_flushes_pending_witness :
  batchBuffer (@NewHub GoValue) = [] ∧ batchTimer (@NewHub GoValue) = None ∧
  closed (broadcast (@NewHub GoValue)) = false ∧
  0 < length (map (λ i, ("tick", DValue (VTick i))) (seq 0 3)) < maxBatchSize ∧
  (0 ≤ batchWindow - 1 < batchWindow)%Z ∧
  (batchWindow ≤ batchWindow)%Z ∧
  ∃ s1 s2 es,
    run (map tick (seq 0 3)) NewHub = Ok (tt, s1, []) ∧
    batchBuffer s1 = map (tick_message VTick) (seq 0 3) ∧
    batchTimer s1 = Some 0 ∧
    timers s1 = [mkTimer batchWindow Armed] ∧
    now s1 = 0%Z ∧
    run [EvTimerExpire 0; EvTimerFunc 0] s1 = Ok (tt, s1, []) ∧
    run [EvSleep (batchWindow - 1); EvTimerExpire 0; EvTimerFunc 0] s1
      = Ok (tt, set_now (batchWindow - 1) s1, []) ∧
    run [EvSleep batchWindow; EvTimerExpire 0; EvTimerFunc 0] s1 = Ok (tt, s2, es) ∧
    flushes es = [map (tick_message VTick) (seq 0 3)] ∧
    batchBuffer s2 = [] ∧ batchTimer s2 = None ∧
    run [EvTimerExpire 0; EvTimerFunc 0] s2 = Ok (tt, s2, []).
Proof.
  assert (0 < length (map (λ i, ("tick", DValue (VTick i))) (seq 0 3)) < maxBatchSize)
    as Hlen by (vm_compute; lia).
  assert (0 ≤ batchWindow - 1 < batchWindow)%Z as Hearly
    by (unfold batchWindow, Millisecond; lia).
  assert (batchWindow ≤ batchWindow)%Z as Hd by lia.
  split; [reflexivity|]. split; [reflexivity|]. split; [reflexivity|].
  split; [exact Hlen|]. split; [exact Hearly|]. split; [exact Hd|].
  exact (window_flushes_pending NewHub
           (map (λ i, ("tick", DValue (VTick i))) (seq 0 3))
           (batchWindow - 1) batchWindow
           eq_refl eq_refl eq_refl Hlen Hearly Hd).
Defined.

Lemma broadcast_reaches_connection_witness :
  registry_inv one_client ∧ fanout one_client = None ∧
  is_snapshot [0] one_client ∧
  buf (broadcast one_client) = [] ∧ 0 < cap (broadcast one_client) ∧
  json_Marshal (tick_message VTick 7) = Some (tick_json 7) ∧
  0 ∈ dom (clients one_client) ∧ send one_client !! 0 = Some (make 256) ∧
  len (make 256) < cap (make 256) ∧
  ∃ s' es,
    run [EvBroadcastMessage "tick" (DValue (VTick 7));
         EvRunBroadcast [0]; EvRunDeliver; EvWritePump 0] one_client
      = Ok (tt, s', es) ∧
    Frame 0 (tick_json 7) ∈ es ∧
    send s' !! 0 = Some (make 256) ∧
    0 ∈ dom (clients s').
Proof.
  assert (is_snapshot [0] one_client) as Hsnap
    by (refine (bool_decide_unpack _ _); vm_compute; exact I).
  assert (0 < cap (broadcast one_client)) as Hcap by (vm_compute; lia).
  assert (0 ∈ dom (clients one_client)) as Hin
    by (refine (bool_decide_unpack _ _); vm_compute; exact I).
  assert (len (make 256) < cap (make 256)) as Hroom by (vm_compute; lia).
  split; [exact one_client_inv|]. split; [reflexivity|]. split; [exact Hsnap|].
  split; [reflexivity|]. split; [exact Hcap|]. split; [reflexivity|].
  split; [exact Hin|]. split; [reflexivity|]. split; [exact Hroom|].
  exact (broadcast_reaches_connection one_client [0] 0 (make 256)
           "tick" (DValue (VTick 7)) (tick_json 7)
           one_client_inv eq_refl Hsnap eq_refl Hcap eq_refl Hin eq_refl Hroom).
Defined.

Lemma uniqueRequestIds_length_witness :
  1 ≤ 3 ∧ Web.length_ge 3 Web.two_and_a_half = true ∧
  length (Web.uniqueRequestIds Web.two_and_a_half Web.four_agents) ≤ 3.
Proof.
  assert (1 ≤ 3) as Hk by lia.
  assert (Web.length_ge 3 Web.two_and_a_half = true) as Hge by reflexivity.
  split; [exact Hk|]. split; [exact Hge|].
  exact (uniqueRequestIds_length Web.two_and_a_half Web.four_agents 3 Hk Hge).
Defined.

Lemma uniqueRequestIds_complete_witness :
  Web.length_ge (length (Web.uniqueRequestIds (Web.Integer 5) Web.recent_calls))
                (Web.Integer 5) = false ∧
  ∀ call, call ∈ Web.recent_calls → Web.requestId call ≠ "" →
    Web.requestId call ∈ Web.uniqueRequestIds (Web.Integer 5) Web.recent_calls.
Proof.
  assert (Web.length_ge (length (Web.uniqueRequestIds (Web.Integer 5) Web.recent_calls))
                        (Web.Integer 5) = false)
    as Hlt by (vm_compute; reflexivity).
  split; [exact Hlt|].
  exact (uniqueRequestIds_complete (Web.Integer 5) Web.recent_calls Hlt).
Defined.

Lemma uniqueRequestIds_limit_below_one_witness :
  Web.length_ge 1 (Web.Integer 0) = true ∧
  Web.uniqueRequestIds (Web.Integer 0) Web.recent_calls = ["req-a"].
Proof.
  assert (Web.length_ge 1 (Web.Integer 0) = true) as Hle by reflexivity.
  split; [exact Hle|].
  rewrite (uniqueRequestIds_limit_below_one (Web.Integer 0) Web.recent_calls Hle).
  vm_compute. reflexivity.
Defined.
